(** * generate_icons.py: the guitar icon renderer and its batch driver

    A shallow embedding of [src/generate_icons.py].  The program has two
    functions: [create_guitar_icon], which paints a fixed composition of
    shapes on a fresh RGBA canvas, and [generate_icons], which renders ten
    sizes and saves each canvas as a PNG file.

    Modelling decisions.

    - Python integers are [Z].  [a // b] is [Z.div] (floor, the divisor is
      positive everywhere) and [int(k * scale)], with [scale = size / 512] a
      float, is [Z.quot (k * size) 512] (truncation toward zero).  The two
      agree as long as [size / 512] and [k * scale] are exact in binary64,
      which holds for every [size] below 2^44 (the constants [k] are at most
      280 in absolute value); no canvas of such a size fits in memory.
    - The program runs in a state-and-exception monad over a [world]: the
      store of live image objects (an image is mutated in place through its
      handle), the file system, and the trace of observable events.
    - [Image.new], [ImageDraw], [os.makedirs] and [Image.save] are library
      calls.  Rectangles are filled exactly (both corners inclusive).  For
      ellipses and rounded rectangles the rasterised pixel set is that of the
      imaging library; it is kept abstract in the class [Rasteriser], which
      only fixes that nothing is painted outside the bounding box and that
      a filled ellipse covers the core of its box.  A drawing call whose box
      has [x1 < x0] or [y1 < y0] raises [ValueError], as Pillow does.
    - Memory, permissions and disk space are not modelled. *)

From Stdlib Require Import ZArith Lia.
From stdpp Require Import base gmap strings list.

Local Open Scope string_scope.
Local Open Scope list_scope.
Local Open Scope Z_scope.

(** ** Pixels and canvases *)

Record rgba := RGBA { red : Z; green : Z; blue : Z; alpha : Z }.

#[global] Instance rgba_eq_dec : EqDecision rgba.
Proof. solve_decision. Defined.

(** The colour tuples that occur in the source. *)
Definition transparent : rgba := RGBA 0 0 0 0.
Definition background_fill : rgba := RGBA 102 126 234 255.
Definition body_fill : rgba := RGBA 255 255 255 240.
Definition string_fill : rgba := RGBA 102 126 234 200.
Definition accent_fill : rgba := RGBA 255 107 107 255.
Definition white_fill : rgba := RGBA 255 255 255 255.

(** An RGBA raster.  [im_pixel] is only meaningful inside the canvas;
    [getpixel] is the guarded read. *)
Record Image := mkImage {
  im_width : Z;
  im_height : Z;
  im_pixel : Z -> Z -> rgba
}.

Definition in_canvas (im : Image) (x y : Z) : bool :=
  (0 <=? x) && (x <? im_width im) && (0 <=? y) && (y <? im_height im).

Definition getpixel (im : Image) (x y : Z) : option rgba :=
  if in_canvas im x y then Some (im_pixel im x y) else None.

(** Two canvases are pixel-identical. *)
Definition same_pixels (a b : Image) : Prop :=
  im_width a = im_width b /\ im_height a = im_height b /\
  forall x y, getpixel a x y = getpixel b x y.

(** A bounding box [[x0, y0, x1, y1]]. *)
Record box := Box { bx0 : Z; by0 : Z; bx1 : Z; by1 : Z }.

Definition well_ordered (b : box) : bool :=
  (bx0 b <=? bx1 b) && (by0 b <=? by1 b).

Definition in_box (b : box) (x y : Z) : bool :=
  (bx0 b <=? x) && (x <=? bx1 b) && (by0 b <=? y) && (y <=? by1 b).

(** Offsets of a pixel from the centre of a box, in half pixels, and the
    region spanned by the end points of the two axes once each is pulled one
    pixel inwards. *)
Definition box_w (b : box) : Z := bx1 b - bx0 b.
Definition box_h (b : box) : Z := by1 b - by0 b.
Definition off_x (b : box) (x : Z) : Z := 2 * x - bx0 b - bx1 b.
Definition off_y (b : box) (y : Z) : Z := 2 * y - by0 b - by1 b.

Definition in_core (b : box) (x y : Z) : bool :=
  (2 <=? box_w b) && (2 <=? box_h b) &&
  (Z.abs (off_x b x) * (box_h b - 2) + Z.abs (off_y b y) * (box_w b - 2)
     <=? (box_w b - 2) * (box_h b - 2)) &&
  (Z.abs (off_x b x) <=? box_w b - 2) && (Z.abs (off_y b y) <=? box_h b - 2).

(** ** The rasteriser of the imaging library

    What is assumed of [ImageDraw.ellipse] and [ImageDraw.rounded_rectangle]
    with a fill: nothing is painted outside the bounding box, and a filled
    ellipse covers the core of its box. *)
Class Rasteriser := {
  ellipse_mask : box -> Z -> Z -> bool;
  rounded_mask : box -> Z -> Z -> Z -> bool;
  ellipse_in_box : forall b x y, ellipse_mask b x y = true -> in_box b x y = true;
  rounded_in_box : forall b r x y, rounded_mask b r x y = true -> in_box b x y = true;
  ellipse_core : forall b x y, in_core b x y = true -> ellipse_mask b x y = true
}.

Inductive shape :=
  | Ellipse
  | RoundedRectangle (radius : Z)
  | Rectangle.

Definition covers `{Rasteriser} (s : shape) (b : box) (x y : Z) : bool :=
  match s with
  | Ellipse => ellipse_mask b x y
  | RoundedRectangle r => rounded_mask b r x y
  | Rectangle => in_box b x y
  end.

(** Filling a shape overwrites the covered pixels of the canvas with the ink
    (an [ImageDraw] on an RGBA image stores the ink, alpha included). *)
Definition paint `{Rasteriser} (im : Image) (s : shape) (b : box) (ink : rgba) : Image :=
  {| im_width := im_width im;
     im_height := im_height im;
     im_pixel := fun x y =>
       if in_canvas im x y && covers s b x y then ink else im_pixel im x y |}.

Definition blank (w h : Z) (color : rgba) : Image :=
  {| im_width := w; im_height := h; im_pixel := fun _ _ => color |}.

(** ** The world: image store, file system, trace *)

Definition handle := nat.
Abbreviation path := (list string).

Variant image_format := PNG.

Inductive node :=
  | Dir
  | File (fmt : image_format) (content : Image).

Variant line :=
  | Generating (filename : string) (size : Z)
  | AllDone.

Variant event :=
  | Printed (l : line)
  | MadeDir (p : path)
  | Saved (p : path) (fmt : image_format) (content : Image).

Record world := mkWorld {
  images : list Image;
  fs : gmap path node;
  trace : list event
}.

Definition empty_world : world := mkWorld [] ∅ [].

Variant exn :=
  | ValueError
  | FileExistsError
  | NotADirectoryError
  | IsADirectoryError
  | FileNotFoundError
  | ReferenceError.

Inductive result (A : Type) :=
  | Ok (a : A) (w : world)
  | Raise (e : exn) (w : world).
Arguments Ok {A} a w.
Arguments Raise {A} e w.

Definition M (A : Type) : Type := world -> result A.

Definition ret {A} (a : A) : M A := fun w => Ok a w.
Definition raise {A} (e : exn) : M A := fun w => Raise e w.
Definition bind {A B} (m : M A) (k : A -> M B) : M B :=
  fun w => match m w with
           | Ok a w' => k a w'
           | Raise e w' => Raise e w'
           end.

#[global] Instance M_ret : MRet M := @ret.
#[global] Instance M_bind : MBind M := fun A B k m => bind m k.

Fixpoint for_each {A} (l : list A) (body : A -> M unit) : M unit :=
  match l with
  | [] => ret tt
  | a :: l' => body a;; for_each l' body
  end.

Definition emit (e : event) (w : world) : world :=
  mkWorld (images w) (fs w) (trace w ++ [e]).

Definition print (l : line) : M unit := fun w => Ok tt (emit (Printed l) w).

(** ** The imaging library: [Image.new], [ImageDraw], [Image.save] *)

(** [Image.new('RGBA', (w, h), color)]: a fresh image object, filled with
    [color]; negative dimensions are refused. *)
Definition Image_new (w h : Z) (color : rgba) : M handle :=
  fun st =>
    if (w <? 0) || (h <? 0) then Raise ValueError st
    else Ok (length (images st))
            (mkWorld (images st ++ [blank w h color]) (fs st) (trace st)).

(** [ImageDraw.Draw(img)] draws into [img] itself: the drawing context is the
    handle of the image. *)
Definition ImageDraw_Draw (img : handle) : handle := img.

Definition update_image (h : handle) (f : Image -> Image) : M unit :=
  fun st =>
    match images st !! h with
    | Some im => Ok tt (mkWorld (<[h := f im]> (images st)) (fs st) (trace st))
    | None => Raise ReferenceError st
    end.

Section Drawing.
Context `{Rasteriser}.

Definition draw_shape (s : shape) (draw : handle) (xy : box) (fill : rgba) : M unit :=
  if well_ordered xy then update_image draw (fun im => paint im s xy fill)
  else raise ValueError.

Definition draw_ellipse (draw : handle) (xy : box) (fill : rgba) : M unit :=
  draw_shape Ellipse draw xy fill.

Definition draw_rounded_rectangle (draw : handle) (xy : box) (radius : Z)
    (fill : rgba) : M unit :=
  draw_shape (RoundedRectangle radius) draw xy fill.

Definition draw_rectangle (draw : handle) (xy : box) (fill : rgba) : M unit :=
  draw_shape Rectangle draw xy fill.

End Drawing.

(** ** The file system: [os.makedirs], [os.path.join], [Image.save]

    A path is the list of its components, relative to the working directory;
    the working directory itself ([[]]) is a directory.  Permissions and disk
    space are not modelled. *)

Definition is_dir (m : gmap path node) (p : path) : bool :=
  match p with
  | [] => true
  | _ => match m !! p with Some Dir => true | _ => false end
  end.

Definition parent (p : path) : path := removelast p.

Definition os_path_join (dir : path) (name : string) : path := dir ++ [name].

Definition mkdir (p : path) (st : world) : world :=
  mkWorld (images st) (<[p := Dir]> (fs st)) (trace st ++ [MadeDir p]).

(** [os.makedirs(name, exist_ok=...)] walks down the components of [name]:
    a missing directory is created, an existing one is entered, and a
    component that is a regular file stops the walk with an error.  Reaching
    [name] itself when it is already a directory is an error unless
    [exist_ok]. *)
Fixpoint makedirs_from (here : path) (rest : list string) (exist_ok : bool) : M unit :=
  match rest with
  | [] => ret tt
  | c :: rest' =>
      fun st =>
        let p := here ++ [c] in
        match fs st !! p with
        | None => makedirs_from p rest' exist_ok (mkdir p st)
        | Some Dir =>
            match rest' with
            | [] => if exist_ok then Ok tt st else Raise FileExistsError st
            | _ => makedirs_from p rest' exist_ok st
            end
        | Some (File _ _) =>
            match rest' with
            | [] => Raise FileExistsError st
            | _ => Raise NotADirectoryError st
            end
        end
  end.

Definition os_makedirs (name : path) (exist_ok : bool) : M unit :=
  makedirs_from [] name exist_ok.

(** [img.save(p, "PNG")]: the file [p] receives the raster as it is at the
    time of the call (PNG is lossless).  The directory of [p] has to exist and
    [p] must not be a directory. *)
Definition Image_save (img : handle) (p : path) (fmt : image_format) : M unit :=
  fun st =>
    match images st !! img with
    | None => Raise ReferenceError st
    | Some im =>
        if is_dir (fs st) (parent p) then
          match fs st !! p with
          | Some Dir => Raise IsADirectoryError st
          | _ => Ok tt (mkWorld (images st) (<[p := File fmt im]> (fs st))
                                (trace st ++ [Saved p fmt im]))
          end
        else Raise FileNotFoundError st
    end.

(** ** The program *)

(** [int(k * scale)] with [scale = size / 512]. *)
Definition int_scaled (size k : Z) : Z := Z.quot (k * size) 512.

Section Program.
Context `{Rasteriser}.

Definition create_guitar_icon (size : Z) : M handle :=
  img ← Image_new size size transparent;
  let draw := ImageDraw_Draw img in
  let scale := int_scaled size in
  (* background disc *)
  let margin := scale 20 in
  let bg_size := size - 2 * margin in
  draw_ellipse draw (Box margin margin (margin + bg_size) (margin + bg_size))
    background_fill;;
  (* guitar *)
  let center_x := size / 2 in
  let center_y := size / 2 in
  let guitar_width := scale 200 in
  let guitar_height := scale 120 in
  (* body *)
  let body_rect :=
    Box (center_x - guitar_width / 2) (center_y - guitar_height / 2 + scale 40)
        (center_x + guitar_width / 2) (center_y + guitar_height / 2 + scale 40) in
  draw_ellipse draw body_rect body_fill;;
  (* neck *)
  let neck_width := scale 200 in
  let neck_height := scale 30 in
  let neck_rect :=
    Box (center_x - neck_width / 2) (center_y - scale 160)
        (center_x + neck_width / 2) (center_y - scale 160 + neck_height) in
  draw_rounded_rectangle draw neck_rect (scale 14) body_fill;;
  (* headstock *)
  let head_width := scale 280 in
  let head_height := scale 60 in
  let head_rect :=
    Box (center_x - head_width / 2) (center_y - scale 200)
        (center_x + head_width / 2) (center_y - scale 200 + head_height) in
  draw_rounded_rectangle draw head_rect (scale 30) body_fill;;
  (* tuners *)
  let tuner_size := scale 12 in
  let tuner_positions := [(-100, -170); (-50, -170); (50, -170); (100, -170)] in
  for_each tuner_positions (fun '(x, y) =>
    let tuner_x := center_x + scale x in
    let tuner_y := center_y + scale y in
    draw_ellipse draw
      (Box (tuner_x - tuner_size / 2) (tuner_y - tuner_size / 2)
           (tuner_x + tuner_size / 2) (tuner_y + tuner_size / 2))
      background_fill);;
  (* strings *)
  let string_width := scale 4 in
  let string_positions := [-100; -50; 50; 100] in
  for_each string_positions (fun x =>
    let string_x := center_x + scale x in
    let start_y := center_y - scale 140 in
    let end_y := center_y + scale 40 in
    draw_rectangle draw
      (Box (string_x - string_width / 2) start_y
           (string_x + string_width / 2) end_y)
      string_fill);;
  (* sound hole *)
  let sound_hole_radius := scale 40 in
  draw_ellipse draw
    (Box (center_x - sound_hole_radius) (center_y - sound_hole_radius + scale 40)
         (center_x + sound_hole_radius) (center_y + sound_hole_radius + scale 40))
    accent_fill;;
  (* inner circle of the sound hole *)
  let inner_radius := scale 30 in
  draw_ellipse draw
    (Box (center_x - inner_radius) (center_y - inner_radius + scale 40)
         (center_x + inner_radius) (center_y + inner_radius + scale 40))
    white_fill;;
  (* decorative notes *)
  let note_size := scale 16 in
  let note_positions := [(-60, -80); (60, -80)] in
  for_each note_positions (fun '(x, y) =>
    let note_x := center_x + scale x in
    let note_y := center_y + scale y in
    (* note head *)
    draw_ellipse draw
      (Box (note_x - note_size / 2) (note_y - note_size / 2)
           (note_x + note_size / 2) (note_y + note_size / 2))
      accent_fill;;
    (* note stem *)
    draw_rectangle draw
      (Box (note_x + note_size / 2 - 2) (note_y - note_size)
           (note_x + note_size / 2 + 2) (note_y + note_size / 2))
      accent_fill);;
  mret img.

Definition sizes : list (Z * string) :=
  [ (16, "icon_16x16.png");
    (32, "icon_16x16@2x.png");
    (32, "icon_32x32.png");
    (64, "icon_32x32@2x.png");
    (128, "icon_128x128.png");
    (256, "icon_128x128@2x.png");
    (256, "icon_256x256.png");
    (512, "icon_256x256@2x.png");
    (512, "icon_512x512.png");
    (1024, "icon_512x512@2x.png") ].

(** ["guitarPlayer/Assets.xcassets/AppIcon.appiconset"] *)
Definition output_dir : path :=
  ["guitarPlayer"; "Assets.xcassets"; "AppIcon.appiconset"].

Definition generate_icons : M unit :=
  os_makedirs output_dir true;;
  for_each sizes (fun '(size, filename) =>
    print (Generating filename size);;
    icon ← create_guitar_icon size;
    Image_save icon (os_path_join output_dir filename) PNG);;
  print AllDone.

End Program.

(** ** The drawing calls of [create_guitar_icon], one by one

    The boxes the function passes to [ImageDraw], named after the comments of
    the source; [guitar_shapes] lists the calls in the order they are made and
    [render] is the canvas they leave.  [create_guitar_icon_run] below shows
    that this is what the function computes. *)

Definition center (size : Z) : Z := size / 2.

Definition background_box (size : Z) : box :=
  let margin := int_scaled size 20 in
  let bg_size := size - 2 * margin in
  Box margin margin (margin + bg_size) (margin + bg_size).

Definition body_box (size : Z) : box :=
  let guitar_width := int_scaled size 200 in
  let guitar_height := int_scaled size 120 in
  Box (center size - guitar_width / 2)
      (center size - guitar_height / 2 + int_scaled size 40)
      (center size + guitar_width / 2)
      (center size + guitar_height / 2 + int_scaled size 40).

Definition neck_box (size : Z) : box :=
  let neck_width := int_scaled size 200 in
  let neck_height := int_scaled size 30 in
  Box (center size - neck_width / 2) (center size - int_scaled size 160)
      (center size + neck_width / 2)
      (center size - int_scaled size 160 + neck_height).

Definition head_box (size : Z) : box :=
  let head_width := int_scaled size 280 in
  let head_height := int_scaled size 60 in
  Box (center size - head_width / 2) (center size - int_scaled size 200)
      (center size + head_width / 2)
      (center size - int_scaled size 200 + head_height).

Definition tuner_positions : list (Z * Z) :=
  [(-100, -170); (-50, -170); (50, -170); (100, -170)].

Definition tuner_box (size : Z) (pos : Z * Z) : box :=
  let tuner_size := int_scaled size 12 in
  let tuner_x := center size + int_scaled size (fst pos) in
  let tuner_y := center size + int_scaled size (snd pos) in
  Box (tuner_x - tuner_size / 2) (tuner_y - tuner_size / 2)
      (tuner_x + tuner_size / 2) (tuner_y + tuner_size / 2).

Definition string_positions : list Z := [-100; -50; 50; 100].

Definition string_box (size : Z) (x : Z) : box :=
  let string_width := int_scaled size 4 in
  let string_x := center size + int_scaled size x in
  Box (string_x - string_width / 2) (center size - int_scaled size 140)
      (string_x + string_width / 2) (center size + int_scaled size 40).

Definition sound_hole_box (size : Z) : box :=
  let sound_hole_radius := int_scaled size 40 in
  Box (center size - sound_hole_radius)
      (center size - sound_hole_radius + int_scaled size 40)
      (center size + sound_hole_radius)
      (center size + sound_hole_radius + int_scaled size 40).

Definition inner_hole_box (size : Z) : box :=
  let inner_radius := int_scaled size 30 in
  Box (center size - inner_radius)
      (center size - inner_radius + int_scaled size 40)
      (center size + inner_radius)
      (center size + inner_radius + int_scaled size 40).

Definition note_positions : list (Z * Z) := [(-60, -80); (60, -80)].

Definition note_head_box (size : Z) (pos : Z * Z) : box :=
  let note_size := int_scaled size 16 in
  let note_x := center size + int_scaled size (fst pos) in
  let note_y := center size + int_scaled size (snd pos) in
  Box (note_x - note_size / 2) (note_y - note_size / 2)
      (note_x + note_size / 2) (note_y + note_size / 2).

Definition note_stem_box (size : Z) (pos : Z * Z) : box :=
  let note_size := int_scaled size 16 in
  let note_x := center size + int_scaled size (fst pos) in
  let note_y := center size + int_scaled size (snd pos) in
  Box (note_x + note_size / 2 - 2) (note_y - note_size)
      (note_x + note_size / 2 + 2) (note_y + note_size / 2).

(** One drawing call: the primitive, its box and its fill. *)
Definition call : Type := shape * box * rgba.

Definition call_box (c : call) : box := snd (fst c).

Definition note_calls (size : Z) (pos : Z * Z) : list call :=
  [ (Ellipse, note_head_box size pos, accent_fill);
    (Rectangle, note_stem_box size pos, accent_fill) ].

Definition guitar_shapes (size : Z) : list call :=
  [ (Ellipse, background_box size, background_fill);
    (Ellipse, body_box size, body_fill);
    (RoundedRectangle (int_scaled size 14), neck_box size, body_fill);
    (RoundedRectangle (int_scaled size 30), head_box size, body_fill) ]
  ++ map (fun pos => (Ellipse, tuner_box size pos, background_fill)) tuner_positions
  ++ map (fun x => (Rectangle, string_box size x, string_fill)) string_positions
  ++ [ (Ellipse, sound_hole_box size, accent_fill);
       (Ellipse, inner_hole_box size, white_fill) ]
  ++ flat_map (note_calls size) note_positions.

Section Rendering.
Context `{Rasteriser}.

Definition paint_call (im : Image) (c : call) : Image :=
  let '(s, b, ink) := c in paint im s b ink.

Definition paint_all (im : Image) (l : list call) : Image :=
  fold_left paint_call l im.

Definition render (size : Z) : Image :=
  paint_all (blank size size transparent) (guitar_shapes size).

(** The ink of the last call of [l] that covers [(x, y)], if any. *)
Fixpoint top_ink (l : list call) (x y : Z) : option rgba :=
  match l with
  | [] => None
  | (s, b, ink) :: l' =>
      match top_ink l' x y with
      | Some c => Some c
      | None => if covers s b x y then Some ink else None
      end
  end.

End Rendering.

(** The files [generate_icons] is to write: path and size, in table order. *)
Definition targets : list (path * Z) :=
  map (fun '(size, filename) => (os_path_join output_dir filename, size)) sizes.

(** Nothing on the way to the output directory is a regular file, and no
    target name is taken by a directory. *)
Fixpoint dirs_free (m : gmap path node) (here : path) (rest : list string) : bool :=
  match rest with
  | [] => true
  | c :: rest' =>
      match m !! (here ++ [c]) with
      | Some (File _ _) => false
      | _ => dirs_free m (here ++ [c]) rest'
      end
  end.

Definition fs_ready (m : gmap path node) : bool :=
  dirs_free m [] output_dir &&
  forallb (fun t => match m !! (fst t) with Some Dir => false | _ => true end) targets.

(** The [Saved] events of a trace, in order. *)
Definition saves (tr : list event) : list (path * image_format * Image) :=
  flat_map (fun e => match e with Saved p f im => [(p, f, im)] | _ => [] end) tr.

(** ** Reading pixels off a list of calls *)

(** The canvas a call of [create_guitar_icon] hands back. *)
Definition returned_canvas `{Rasteriser} (size : Z) (st : world) : option Image :=
  match create_guitar_icon size st with
  | Ok img st' => images st' !! img
  | Raise _ _ => None
  end.

(** What can be said of a call and a pixel whatever the rasteriser: covered,
    not covered, or left to the rasteriser ([None]). *)
Definition verdict (s : shape) (b : box) (x y : Z) : option bool :=
  match s with
  | Rectangle => Some (in_box b x y)
  | Ellipse =>
      if negb (in_box b x y) then Some false
      else if in_core b x y then Some true else None
  | RoundedRectangle _ => if negb (in_box b x y) then Some false else None
  end.

Definition call_inks (c : call) (x y : Z) : list (option rgba) :=
  let '(s, b, ink) := c in
  match verdict s b x y with
  | Some true => [Some ink]
  | Some false => [None]
  | None => [Some ink; None]
  end.

(** The values [top_ink l x y] can take over all rasterisers. *)
Fixpoint candidates (l : list call) (x y : Z) : list (option rgba) :=
  match l with
  | [] => [None]
  | c :: l' =>
      flat_map (fun r => match r with
                         | Some i => [Some i]
                         | None => call_inks c x y
                         end) (candidates l' x y)
  end.

(** Coordinates of a call: the four of its box and, for a rounded rectangle,
    the corner radius. *)
Definition coords (c : call) : list Z :=
  let '(s, b, _) := c in
  [bx0 b; by0 b; bx1 b; by1 b]
  ++ match s with RoundedRectangle r => [r] | _ => [] end.

(** Positions of the two note stems in [guitar_shapes]. *)
Definition is_stem (i : nat) : bool := (i =? 15)%nat || (i =? 17)%nat.

(** ** An ideal rasteriser

    A pixel is covered when its centre lies in the mathematical shape.  It
    inhabits [Rasteriser] (see [ideal_raster]). *)

Definition ideal_ellipse (b : box) (x y : Z) : bool :=
  in_box b x y &&
  (off_x b x * off_x b x * (box_h b * box_h b)
   + off_y b y * off_y b y * (box_w b * box_w b)
   <=? box_w b * box_w b * (box_h b * box_h b)).

Definition ideal_rounded (b : box) (r x y : Z) : bool :=
  in_box b x y &&
  (let dx := Z.max 0 (Z.max (bx0 b + r - x) (x - (bx1 b - r))) in
   let dy := Z.max 0 (Z.max (by0 b + r - y) (y - (by1 b - r))) in
   dx * dx + dy * dy <=? r * r).

(** ** The batch driver, step by step *)

(** The world after one round of the loop of [generate_icons]. *)
Definition icon_step `{Rasteriser} (st : world) (entry : Z * string) : world :=
  let '(size, filename) := entry in
  let p := os_path_join output_dir filename in
  mkWorld (images st ++ [render size])
          (<[p := File PNG (render size)]> (fs st))
          (trace st ++ [Printed (Generating filename size); Saved p PNG (render size)]).

(** Every directory from [here] down to [here ++ rest] exists. *)
Fixpoint all_dirs (m : gmap path node) (here : path) (rest : list string) : bool :=
  match rest with
  | [] => true
  | c :: rest' =>
      match m !! (here ++ [c]) with
      | Some Dir => all_dirs m (here ++ [c]) rest'
      | _ => false
      end
  end.

(** [p] is the output directory or one of its ancestors. *)
Definition on_the_way (p : path) : bool :=
  bool_decide (p = ["guitarPlayer"])
  || bool_decide (p = ["guitarPlayer"; "Assets.xcassets"])
  || bool_decide (p = output_dir).

Definition is_target (p : path) : bool :=
  bool_decide (p ∈ map fst targets).

(** ** Statements

    The properties proved below, as predicates over the program. *)

(** The contract of one call of [create_guitar_icon]. *)
Definition fresh_canvas_returned `{Rasteriser} (size : Z) (st : world) : Prop :=
  exists img st' im,
    create_guitar_icon size st = Ok img st' /\
    images st' !! img = Some im /\
    (* a [size] x [size] canvas *)
    im_width im = size /\ im_height im = size /\
    (* painted over a canvas every pixel of which is (0, 0, 0, 0) *)
    im = paint_all (blank size size transparent) (guitar_shapes size) /\
    (forall x y c, getpixel (blank size size transparent) x y = Some c ->
                   c = transparent) /\
    (forall x y, 0 <= x < size -> 0 <= y < size ->
       Forall (fun c => covers (fst (fst c)) (call_box c) x y = false)
              (guitar_shapes size) ->
       getpixel im x y = Some transparent) /\
    (* nothing but the new image object changes *)
    fs st' = fs st /\ trace st' = trace st /\
    images st !! img = None /\
    (forall h, h <> img -> images st' !! h = images st !! h).


(** Two calls at the same size, from whatever states, return pixel-identical
    canvases; so do two calls in a row, which return distinct image objects. *)
Definition same_canvas_each_time `{Rasteriser} (size : Z) : Prop :=
  (forall st1 st2, exists im1 im2,
      returned_canvas size st1 = Some im1 /\
      returned_canvas size st2 = Some im2 /\
      same_pixels im1 im2) /\
  (forall st, exists a b st' ima imb,
      (a ← create_guitar_icon size; b ← create_guitar_icon size; mret (a, b)) st
        = Ok (a, b) st' /\
      a <> b /\
      images st' !! a = Some ima /\ images st' !! b = Some imb /\
      same_pixels ima imb).

(** Every box of every call is well ordered and the call returns. *)
Definition draws_and_returns `{Rasteriser} (size : Z) : Prop :=
  Forall (fun c => bx0 (call_box c) <= bx1 (call_box c) /\
                   by0 (call_box c) <= by1 (call_box c)) (guitar_shapes size) /\
  forall st, exists img st' im,
    create_guitar_icon size st = Ok img st' /\ images st' !! img = Some im.

(** At size 16 the string width, the tuner diameter, both corner radii and
    the inner radius of the sound hole truncate to 0. *)
Definition truncated_at_16 : Prop :=
  int_scaled 16 4 = 0 /\ int_scaled 16 12 = 0 /\ int_scaled 16 14 = 0 /\
  int_scaled 16 30 = 0 /\
  box_w (string_box 16 (-100)) = 0 /\ box_w (tuner_box 16 (-100, -170)) = 0 /\
  box_w (inner_hole_box 16) = 0.

(** The two sample pixels of the 512 canvas, as the specification has them:
    transparent corner, background colour at the centre. *)
Definition corner_and_centre_as_specified `{Rasteriser} : Prop :=
  forall st, exists im,
    returned_canvas 512 st = Some im /\
    getpixel im 0 0 = Some transparent /\
    getpixel im 256 256 = Some background_fill.

(** The same pixels as the code paints them: the centre lies on the guitar
    (top row of the sound hole's box, inside the body); the background colour
    shows below the body, for instance at (256, 430). *)
Definition corner_and_centre_as_painted `{Rasteriser} : Prop :=
  forall st, exists im,
    returned_canvas 512 st = Some im /\
    getpixel im 0 0 = Some transparent /\
    (getpixel im 256 256 = Some accent_fill \/
     getpixel im 256 256 = Some body_fill) /\
    getpixel im 256 430 = Some background_fill.

(** The sound hole: the two calls, and the pixels they leave in the canvas.
    [inner] is the set of pixels the white disc covers, the ring is what the
    red disc covers outside of it. *)
Definition sound_hole_calls (size : Z) : Prop :=
  guitar_shapes size !! 12%nat = Some (Ellipse, sound_hole_box size, accent_fill) /\
  guitar_shapes size !! 13%nat = Some (Ellipse, inner_hole_box size, white_fill) /\
  sound_hole_box size =
    Box (center size - int_scaled size 40)
        (center size + int_scaled size 40 - int_scaled size 40)
        (center size + int_scaled size 40)
        (center size + int_scaled size 40 + int_scaled size 40) /\
  inner_hole_box size =
    Box (center size - int_scaled size 30)
        (center size + int_scaled size 40 - int_scaled size 30)
        (center size + int_scaled size 30)
        (center size + int_scaled size 40 + int_scaled size 30).

Definition inner_white `{Rasteriser} (size : Z) (im : Image) : Prop :=
  forall x y, in_canvas im x y = true ->
    ellipse_mask (inner_hole_box size) x y = true ->
    getpixel im x y = Some white_fill.

Definition ring_red `{Rasteriser} (size : Z) (im : Image) : Prop :=
  forall x y, in_canvas im x y = true ->
    ellipse_mask (sound_hole_box size) x y = true ->
    ellipse_mask (inner_hole_box size) x y = false ->
    getpixel im x y = Some accent_fill.

Definition centre_white (size : Z) (im : Image) : Prop :=
  getpixel im (center size) (center size + int_scaled size 40) = Some white_fill.

(** The four pixels next to the box of the inner disc on the two axes of the
    sound hole. *)
Definition ring_samples (size : Z) : list (Z * Z) :=
  let cx := center size in
  let cy := center size + int_scaled size 40 in
  let d := int_scaled size 30 + 1 in
  [(cx - d, cy); (cx + d, cy); (cx, cy - d); (cx, cy + d)].

(** As the specification has it, at every size. *)
Definition sound_hole_as_specified `{Rasteriser} (size : Z) : Prop :=
  forall st, exists im,
    returned_canvas size st = Some im /\
    sound_hole_calls size /\
    inner_white size im /\ ring_red size im /\ centre_white size im.

(** As the code paints it. *)
Definition sound_hole_as_painted `{Rasteriser} (size : Z) : Prop :=
  forall st, exists im,
    returned_canvas size st = Some im /\
    sound_hole_calls size /\
    inner_white size im /\ ring_red size im /\
    (18 <= size -> centre_white size im) /\
    (int_scaled size 30 + 2 <= int_scaled size 40 ->
     Forall (fun p => getpixel im (fst p) (snd p) = Some accent_fill)
            (ring_samples size)).

(** The scaling law between two sizes, for one coordinate: [v2] is [v1]
    scaled by [s2 / s1], up to [tol] pixels at either size. *)
Definition scaled_within (tol s1 s2 v1 v2 : Z) : Prop :=
  Z.abs (s1 * v2 - s2 * v1) <= tol * (s1 + s2).

(** Positions at which two lists of coordinate lists differ. *)
Fixpoint mismatches (n : nat) (l1 l2 : list (list Z)) : list nat :=
  match l1, l2 with
  | a :: l1', b :: l2' =>
      (if decide (a = b) then [] else [n]) ++ mismatches (S n) l1' l2'
  | _, _ => []
  end.

(** A note glyph as the code draws it: the head around
    [(center + int(x*scale), center + int(y*scale))], the stem from
    [note_size] above to [note_size // 2] below that point, two pixels to
    either side of the right edge of the head. *)
Definition note_glyph_as_painted (size : Z) (pos : Z * Z) : Prop :=
  let note_size := int_scaled size 16 in
  let note_x := center size + int_scaled size (fst pos) in
  let note_y := center size + int_scaled size (snd pos) in
  let head := note_head_box size pos in
  let stem := note_stem_box size pos in
  head = Box (note_x - note_size / 2) (note_y - note_size / 2)
             (note_x + note_size / 2) (note_y + note_size / 2) /\
  by0 stem = note_y - note_size /\ by1 stem = note_y + note_size / 2 /\
  bx0 stem = bx1 head - 2 /\ bx1 stem = bx1 head + 2 /\
  box_w stem = 4 /\
  In (Ellipse, head, accent_fill) (guitar_shapes size) /\
  In (Rectangle, stem, accent_fill) (guitar_shapes size).

(** The world a computation ends in, whether it returns or raises. *)
Definition final_world {A} (r : result A) : world :=
  match r with
  | Ok _ w => w
  | Raise _ w => w
  end.

(** A world in which [guitarPlayer] is a regular file. *)
Definition blocked_world : world :=
  mkWorld [] {[ ["guitarPlayer"] := File PNG (blank 1 1 transparent) ]} [].

(** The body of the loop of [generate_icons]. *)
Definition icon_round `{Rasteriser} (entry : Z * string) : M unit :=
  let '(size, filename) := entry in
  print (Generating filename size);;
  icon ← create_guitar_icon size;
  Image_save icon (os_path_join output_dir filename) PNG.

(** What a complete run leaves: the ten files saved in table order, each
    holding the canvas of its size, which is [size] x [size]; and nothing
    else in the file system touched but the output directory and its
    parents. *)
Definition icons_written `{Rasteriser} (st st' : world) : Prop :=
  saves (trace st') =
    saves (trace st)
    ++ map (fun '(size, filename) =>
              (os_path_join output_dir filename, PNG, render size)) sizes /\
  Forall (fun '(size, filename) =>
            exists im,
              fs st' !! os_path_join output_dir filename = Some (File PNG im) /\
              returned_canvas size st = Some im /\
              im_width im = size /\ im_height im = size) sizes /\
  (forall q, on_the_way q = false -> is_target q = false ->
             fs st' !! q = fs st !! q).

(** As the specification has it: from any state of the file system. *)
Definition generate_icons_as_specified `{Rasteriser} : Prop :=
  forall st, exists st', generate_icons st = Ok tt st' /\ icons_written st st'.

Definition generate_icons_completes `{Rasteriser} (st : world) : Prop :=
  exists st', generate_icons st = Ok tt st' /\ icons_written st st'.

(** Directory first: [os.makedirs] runs before anything is saved.  If it
    returns, the output directory and its parents exist, no file has been
    saved yet, the rest of the run only adds to the trace, and calling it
    again changes nothing; if it raises, so does the run, with no file saved.
    Where the directories exist already it returns without touching the
    world. *)
Definition output_dir_first `{Rasteriser} (st : world) : Prop :=
  match os_makedirs output_dir true st with
  | Ok _ st1 =>
      all_dirs (fs st1) [] output_dir = true /\
      is_dir (fs st1) output_dir = true /\
      saves (trace st1) = saves (trace st) /\
      (exists later,
          trace (final_world (generate_icons st)) = trace st1 ++ later) /\
      os_makedirs output_dir true st1 = Ok tt st1
  | Raise e st1 =>
      generate_icons st = Raise e st1 /\ saves (trace st1) = saves (trace st)
  end /\
  (dirs_free (fs st) [] output_dir = true ->
   exists st1, os_makedirs output_dir true st = Ok tt st1) /\
  (all_dirs (fs st) [] output_dir = true ->
   os_makedirs output_dir true st = Ok tt st).

(** Two files of the output directory hold pixel-identical images. *)
Definition same_file_content (st : world) (name1 name2 : string) : Prop :=
  exists im1 im2,
    fs st !! os_path_join output_dir name1 = Some (File PNG im1) /\
    fs st !! os_path_join output_dir name2 = Some (File PNG im2) /\
    same_pixels im1 im2.

Definition twin_files_identical `{Rasteriser} (st : world) : Prop :=
  exists st',
    generate_icons st = Ok tt st' /\
    same_file_content st' "icon_16x16@2x.png" "icon_32x32.png" /\
    same_file_content st' "icon_128x128@2x.png" "icon_256x256.png" /\
    same_file_content st' "icon_256x256@2x.png" "icon_512x512.png".

(** ** Further properties of the renderer *)

(** The fills the function passes to its drawing calls, and the colour the
    canvas starts with. *)
Definition palette : list rgba :=
  [transparent; background_fill; body_fill; string_fill; accent_fill; white_fill].

(** The border left by the margin of the background disc is transparent. *)
Definition margin_transparent `{Rasteriser} (size : Z) : Prop :=
  forall st, exists im,
    returned_canvas size st = Some im /\
    forall x y, in_canvas im x y = true ->
      in_box (background_box size) x y = false ->
      getpixel im x y = Some transparent.

(** Every pixel of the returned canvas is one of the colours of [palette]. *)
Definition palette_only `{Rasteriser} (size : Z) : Prop :=
  forall st, exists im,
    returned_canvas size st = Some im /\
    forall x y c, getpixel im x y = Some c -> c ∈ palette.

(** At size [512 * m] a call is the call of size 512 magnified [m] times;
    a stem keeps its width of 4, so its two horizontal coordinates are off
    by [2 * (m - 1)] inwards. *)
Definition magnified (m : Z) (i : nat) (c d : call) : Prop :=
  if is_stem i then
    match coords c, coords d with
    | [x0; y0; x1; y1], [u0; v0; u1; v1] =>
        x0 = m * u0 + 2 * (m - 1) /\ y0 = m * v0 /\
        x1 = m * u1 - 2 * (m - 1) /\ y1 = m * v1 /\ x1 - x0 = 4
    | _, _ => False
    end
  else coords c = map (Z.mul m) (coords d).

(** What a call does at each integer size: a negative size is refused by
    [Image.new] before anything is drawn and the world is left as it was;
    otherwise a canvas of that size comes back, with no pixel at all at
    size 0. *)
Definition size_outcome `{Rasteriser} (size : Z) (st : world) : Prop :=
  if size <? 0 then create_guitar_icon size st = Raise ValueError st
  else exists im,
         returned_canvas size st = Some im /\
         im_width im = size /\ im_height im = size /\
         (size = 0 -> forall x y, getpixel im x y = None).

(** ** Further properties of the batch driver *)

(** The directories [os.makedirs] has to create, parents first. *)
Fixpoint missing_dirs (m : gmap path node) (here : path) (rest : list string)
    : list path :=
  match rest with
  | [] => []
  | c :: rest' =>
      match m !! (here ++ [c]) with
      | None => (here ++ [c]) :: missing_dirs m (here ++ [c]) rest'
      | Some _ => missing_dirs m (here ++ [c]) rest'
      end
  end.

(** The events of one round of the loop: the progress line, then the save. *)
Definition round_events `{Rasteriser} (entry : Z * string) : list event :=
  let '(size, filename) := entry in
  [Printed (Generating filename size);
   Saved (os_path_join output_dir filename) PNG (render size)].

(** The trace of a complete run. *)
Definition complete_trace `{Rasteriser} (st : world) : Prop :=
  exists st',
    generate_icons st = Ok tt st' /\
    trace st' =
      trace st ++ map MadeDir (missing_dirs (fs st) [] output_dir)
      ++ flat_map round_events sizes ++ [Printed AllDone].

(** The name of a table entry is taken by a directory. *)
Definition taken (m : gmap path node) (entry : Z * string) : bool :=
  is_dir m (os_path_join output_dir (snd entry)).

(** A run that stops at [entry], the first table entry whose name is taken
    by a directory: it raises [IsADirectoryError] right after the progress
    line of that entry; the files of the entries before it have been saved
    and stay, those after it are untouched. *)
Definition stops_at `{Rasteriser} (st : world) (before : list (Z * string))
    (entry : Z * string) (after : list (Z * string)) : Prop :=
  exists st',
    generate_icons st = Raise IsADirectoryError st' /\
    trace st' =
      trace st ++ map MadeDir (missing_dirs (fs st) [] output_dir)
      ++ flat_map round_events before
      ++ [Printed (Generating (snd entry) (fst entry))] /\
    Forall (fun e => fs st' !! os_path_join output_dir (snd e)
                     = Some (File PNG (render (fst e)))) before /\
    Forall (fun e => fs st' !! os_path_join output_dir (snd e)
                     = fs st !! os_path_join output_dir (snd e))
           (entry :: after).

(** Running the driver a second time. *)
Definition rerun_changes_nothing `{Rasteriser} (st : world) : Prop :=
  exists st' st'',
    generate_icons st = Ok tt st' /\
    generate_icons st' = Ok tt st'' /\
    fs st'' = fs st' /\
    trace st'' = trace st' ++ flat_map round_events sizes ++ [Printed AllDone].

(** The exceptions a run can end with. *)
Definition run_failure (e : exn) : bool :=
  match e with
  | NotADirectoryError | FileExistsError | IsADirectoryError => true
  | _ => false
  end.

(** A world in which the output directory exists and the name of the third
    table entry is taken by a directory. *)
Definition third_taken_world : world :=
  mkWorld []
    (<[os_path_join output_dir "icon_32x32.png" := Dir]>
       (<[output_dir := Dir]>
          (<[["guitarPlayer"; "Assets.xcassets"] := Dir]>
             {[ ["guitarPlayer"] := Dir ]})))
    [].

(** * Proofs *)

(** Linear arithmetic with the floor and truncating divisions spelled out. *)
Ltac zdiv := Z.to_euclidean_division_equations; lia.

Ltac box_ordered :=
  unfold well_ordered; cbn [bx0 bx1 by0 by1];
  apply andb_true_intro; split; apply Z.leb_le;
  unfold int_scaled, center; zdiv.

(** ** What the calls compute *)

Section Runs.
Context `{Rasteriser}.

Lemma Image_new_run (w h : Z) (c : rgba) (st : world) :
  0 <= w -> 0 <= h ->
  Image_new w h c st =
  Ok (length (images st)) (mkWorld (images st ++ [blank w h c]) (fs st) (trace st)).
Proof.
  intros Hw Hh. unfold Image_new.
  replace (w <? 0) with false by (symmetry; apply Z.ltb_ge; lia).
  replace (h <? 0) with false by (symmetry; apply Z.ltb_ge; lia).
  reflexivity.
Qed.

Lemma draw_shape_run (s : shape) (b : box) (ink : rgba)
    (imgs : list Image) (im : Image) (m : gmap path node) (tr : list event) :
  well_ordered b = true ->
  draw_shape s (length imgs) b ink (mkWorld (imgs ++ [im]) m tr) =
  Ok tt (mkWorld (imgs ++ [paint im s b ink]) m tr).
Proof.
  intros Hb. unfold draw_shape, update_image. rewrite Hb. cbn [images fs trace].
  rewrite lookup_app_r by lia. rewrite Nat.sub_diag. cbn.
  rewrite insert_app_r_alt by lia. rewrite Nat.sub_diag. reflexivity.
Qed.

Lemma create_guitar_icon_run (size : Z) (st : world) :
  0 <= size ->
  create_guitar_icon size st =
  Ok (length (images st))
     (mkWorld (images st ++ [render size]) (fs st) (trace st)).
Proof.
  intros Hs. unfold create_guitar_icon.
  cbv beta iota zeta delta [mbind M_bind bind mret M_ret ret for_each ImageDraw_Draw
    draw_ellipse draw_rectangle draw_rounded_rectangle].
  rewrite Image_new_run by lia.
  repeat (rewrite draw_shape_run by box_ordered).
  reflexivity.
Qed.
End Runs.


(** ** Pixels of a painted canvas *)

Section Pixels.
Context `{Rasteriser}.

Lemma covers_in_box s b x y : covers s b x y = true -> in_box b x y = true.
Proof.
  destruct s; cbn; [apply ellipse_in_box | apply rounded_in_box | auto].
Qed.

Lemma outside_not_covered s b x y : in_box b x y = false -> covers s b x y = false.
Proof.
  intros Hout. destruct (covers s b x y) eqn:E; [|reflexivity].
  apply covers_in_box in E. congruence.
Qed.

Lemma verdict_sound s b x y v : verdict s b x y = Some v -> covers s b x y = v.
Proof.
  destruct s; cbn.
  - destruct (in_box b x y) eqn:Hb; cbn.
    + destruct (in_core b x y) eqn:Hc; [|discriminate].
      intros [= <-]. now apply ellipse_core.
    + intros [= <-]. now apply (outside_not_covered Ellipse).
  - destruct (in_box b x y) eqn:Hb; cbn; [discriminate|].
    intros [= <-]. now apply (outside_not_covered (RoundedRectangle radius)).
  - now intros [= <-].
Qed.

Lemma paint_all_width im l : im_width (paint_all im l) = im_width im.
Proof.
  revert im. induction l as [|[[s b] ink] l IH]; intros im; [reflexivity|].
  cbn. unfold paint_all in IH. rewrite IH. reflexivity.
Qed.

Lemma paint_all_height im l : im_height (paint_all im l) = im_height im.
Proof.
  revert im. induction l as [|[[s b] ink] l IH]; intros im; [reflexivity|].
  cbn. unfold paint_all in IH. rewrite IH. reflexivity.
Qed.

Lemma in_canvas_paint_all im l x y :
  in_canvas (paint_all im l) x y = in_canvas im x y.
Proof. unfold in_canvas. now rewrite paint_all_width, paint_all_height. Qed.

Lemma pixel_paint_all im l x y :
  in_canvas im x y = true ->
  im_pixel (paint_all im l) x y = default (im_pixel im x y) (top_ink l x y).
Proof.
  revert im. induction l as [|[[s b] ink] l IH]; intros im Hin; [reflexivity|].
  change (paint_all im ((s, b, ink) :: l)) with (paint_all (paint im s b ink) l).
  rewrite IH by exact Hin. cbn [top_ink].
  destruct (top_ink l x y) as [c|]; [reflexivity|].
  cbn. rewrite Hin. cbn. now destruct (covers s b x y).
Qed.

Lemma getpixel_paint_all im l x y :
  getpixel (paint_all im l) x y =
  if in_canvas im x y then Some (default (im_pixel im x y) (top_ink l x y)) else None.
Proof.
  unfold getpixel. rewrite in_canvas_paint_all.
  destruct (in_canvas im x y) eqn:Hin; [|reflexivity].
  now rewrite pixel_paint_all.
Qed.

Lemma top_ink_candidates l x y : top_ink l x y ∈ candidates l x y.
Proof.
  induction l as [|[[s b] ink] l IH]; cbn [top_ink candidates].
  - apply list_elem_of_singleton. reflexivity.
  - apply list_elem_of_In, in_flat_map. exists (top_ink l x y).
    split; [apply list_elem_of_In, IH | apply list_elem_of_In].
    destruct (top_ink l x y) as [c|].
    + apply list_elem_of_singleton; reflexivity.
    + unfold call_inks. destruct (verdict s b x y) as [[|]|] eqn:Hv.
      * apply verdict_sound in Hv. rewrite Hv. apply list_elem_of_singleton; reflexivity.
      * apply verdict_sound in Hv. rewrite Hv. apply list_elem_of_singleton; reflexivity.
      * destruct (covers s b x y); [left | right; left].
Qed.

Lemma render_width size : im_width (render size) = size.
Proof. unfold render. now rewrite paint_all_width. Qed.

Lemma render_height size : im_height (render size) = size.
Proof. unfold render. now rewrite paint_all_height. Qed.

Lemma getpixel_render size x y :
  0 <= x < size -> 0 <= y < size ->
  getpixel (render size) x y =
  Some (default transparent (top_ink (guitar_shapes size) x y)).
Proof.
  intros Hx Hy. unfold render. rewrite getpixel_paint_all.
  replace (in_canvas (blank size size transparent) x y) with true; [reflexivity|].
  symmetry. unfold in_canvas; cbn.
  repeat (apply andb_true_intro; split); first [apply Z.leb_le | apply Z.ltb_lt]; lia.
Qed.

Lemma returned_canvas_render size st :
  0 <= size -> returned_canvas size st = Some (render size).
Proof.
  intros Hs. unfold returned_canvas. rewrite create_guitar_icon_run by exact Hs.
  cbn [images]. rewrite lookup_app_r by lia. now rewrite Nat.sub_diag.
Qed.

End Pixels.

(** ** The ideal rasteriser is a rasteriser *)

Lemma ideal_ellipse_in_box b x y : ideal_ellipse b x y = true -> in_box b x y = true.
Proof. unfold ideal_ellipse. intros Hm. now apply andb_prop in Hm. Qed.

Lemma ideal_rounded_in_box b r x y : ideal_rounded b r x y = true -> in_box b x y = true.
Proof. unfold ideal_rounded. intros Hm. now apply andb_prop in Hm. Qed.

Lemma core_inside_ellipse (p q w h : Z) :
  0 <= p -> 0 <= q -> 2 <= w -> 2 <= h ->
  p * (h - 2) + q * (w - 2) <= (w - 2) * (h - 2) -> p <= w - 2 -> q <= h - 2 ->
  p * p * (h * h) + q * q * (w * w) <= w * w * (h * h).
Proof.
  intros Hp Hq Hw Hh Hd Hpw Hqh.
  assert (Hsum : p * h + q * w <= w * h) by nia.
  assert (Hsq : (p * h + q * w) * (p * h + q * w) <= (w * h) * (w * h))
    by (apply Z.square_le_mono_nonneg; nia).
  assert (Hcross : 0 <= p * h * (q * w)) by (apply Z.mul_nonneg_nonneg; nia).
  nia.
Qed.

Lemma ideal_ellipse_core b x y : in_core b x y = true -> ideal_ellipse b x y = true.
Proof.
  unfold in_core, ideal_ellipse, in_box.
  intros Hc.
  apply andb_prop in Hc as [Hc Hy]. apply andb_prop in Hc as [Hc Hx].
  apply andb_prop in Hc as [Hc Hd]. apply andb_prop in Hc as [Hw Hh].
  apply Z.leb_le in Hy, Hx, Hd, Hw, Hh.
  pose proof (core_inside_ellipse (Z.abs (off_x b x)) (Z.abs (off_y b y))
                (box_w b) (box_h b) (Z.abs_nonneg _) (Z.abs_nonneg _) Hw Hh Hd Hx Hy) as He.
  replace (Z.abs (off_x b x) * Z.abs (off_x b x)) with (off_x b x * off_x b x) in He
    by (symmetry; apply Z.abs_square).
  replace (Z.abs (off_y b y) * Z.abs (off_y b y)) with (off_y b y * off_y b y) in He
    by (symmetry; apply Z.abs_square).
  apply andb_true_intro; split; [|apply Z.leb_le; exact He].
  unfold off_x, off_y, box_w, box_h in *.
  repeat (apply andb_true_intro; split); apply Z.leb_le; lia.
Qed.

Definition ideal_raster : Rasteriser :=
  {| ellipse_mask := ideal_ellipse;
     rounded_mask := ideal_rounded;
     ellipse_in_box := ideal_ellipse_in_box;
     rounded_in_box := ideal_rounded_in_box;
     ellipse_core := ideal_ellipse_core |}.


(** ** The renderer: canvas, totality, determinism *)

Section Renderer.
Context `{Rasteriser}.

Lemma guitar_shapes_ordered (size : Z) :
  0 <= size ->
  Forall (fun c => well_ordered (call_box c) = true) (guitar_shapes size).
Proof.
  intros Hs. unfold guitar_shapes. cbn [map flat_map note_calls app
    tuner_positions string_positions note_positions].
  repeat constructor; cbn [call_box fst snd];
    unfold background_box, body_box, neck_box, head_box, tuner_box, string_box,
      sound_hole_box, inner_hole_box, note_head_box, note_stem_box;
    cbn [fst snd]; box_ordered.
Qed.

Lemma top_ink_uncovered (l : list call) (x y : Z) :
  Forall (fun c => covers (fst (fst c)) (call_box c) x y = false) l ->
  top_ink l x y = None.
Proof.
  induction 1 as [|[[s b] ink] l Hc _ IH]; [reflexivity|].
  cbn [top_ink]. rewrite IH. cbn in Hc. now rewrite Hc.
Qed.

End Renderer.

(** C2.  For every positive size, [create_guitar_icon size] returns a canvas
    of exactly [size] x [size] pixels, created fully transparent before any
    shape is drawn (so a pixel no shape covers is still (0,0,0,0)), and the
    call changes nothing else: the file system, the trace and every image
    object that existed before are as they were. *)
Theorem create_guitar_icon_fresh_canvas `{Rasteriser} (size : Z) (st : world) :
  0 < size -> fresh_canvas_returned size st.
Proof.
  intros Hs. exists (length (images st)), (mkWorld (images st ++ [render size]) (fs st) (trace st)),
    (render size).
  split; [apply create_guitar_icon_run; lia|].
  cbn [images fs trace].
  split; [rewrite lookup_app_r by lia; now rewrite Nat.sub_diag|].
  split; [apply render_width|]. split; [apply render_height|].
  split; [reflexivity|].
  split.
  { intros x y c. unfold getpixel. destruct (in_canvas _ x y); [|discriminate].
    now intros [= <-]. }
  split.
  { intros x y Hx Hy Hun. rewrite getpixel_render by assumption.
    now rewrite top_ink_uncovered. }
  split; [reflexivity|]. split; [reflexivity|].
  split; [apply lookup_ge_None; lia|].
  intros h Hh. destruct (decide (h < length (images st))%nat) as [Hlt|Hge].
  - now rewrite lookup_app_l.
  - rewrite !(proj2 (lookup_ge_None _ _)); [reflexivity | lia |].
    rewrite length_app. cbn. lia.
Qed.

Lemma create_guitar_icon_fresh_canvas_witness :
  0 < 16 /\ @fresh_canvas_returned ideal_raster 16 empty_world.
Proof.
  split; [lia | apply (@create_guitar_icon_fresh_canvas ideal_raster 16 empty_world); lia].
Defined.

Lemma same_pixels_refl (im : Image) : same_pixels im im.
Proof. repeat split. Qed.

(** C7.  The renderer is deterministic: for every positive size, two
    invocations of [create_guitar_icon] with that size return pixel-identical
    canvases, whatever the states they start from, and also when one follows
    the other. *)
Theorem create_guitar_icon_deterministic `{Rasteriser} (size : Z) :
  0 < size -> same_canvas_each_time size.
Proof.
  intros Hs. split.
  - intros st1 st2. exists (render size), (render size).
    rewrite !returned_canvas_render by lia.
    repeat split.
  - intros st.
    exists (length (images st)), (S (length (images st))),
      (mkWorld ((images st ++ [render size]) ++ [render size]) (fs st) (trace st)),
      (render size), (render size).
    split.
    { unfold mbind, M_bind, bind, mret, M_ret, ret.
      rewrite create_guitar_icon_run by lia.
      rewrite create_guitar_icon_run by lia.
      cbn [images fs trace]. rewrite length_app. cbn [length].
      now rewrite Nat.add_1_r. }
    split; [lia|]. cbn [images].
    split.
    { rewrite lookup_app_l by (rewrite length_app; cbn; lia).
      rewrite lookup_app_r by lia. now rewrite Nat.sub_diag. }
    split; [|apply same_pixels_refl].
    rewrite lookup_app_r by (rewrite length_app; cbn; lia).
    rewrite length_app. cbn [length].
    now replace (S (length (images st)) - (length (images st) + 1))%nat with 0%nat by lia.
Qed.

Lemma create_guitar_icon_deterministic_witness :
  0 < 32 /\ @same_canvas_each_time ideal_raster 32.
Proof.
  split; [lia | apply (@create_guitar_icon_deterministic ideal_raster 32); lia].
Defined.

(** C9.  [create_guitar_icon] is total on the positive sizes: every box it
    passes to a drawing call is well ordered ([x0 <= x1], [y0 <= y1]), also
    where truncation makes widths and radii zero, as at size 16, and the call
    returns a canvas without raising. *)
Theorem create_guitar_icon_total `{Rasteriser} (size : Z) :
  0 < size -> draws_and_returns size /\ truncated_at_16.
Proof.
  intros Hs. split; [split|].
  - eapply Forall_impl; [apply guitar_shapes_ordered; lia|].
    intros c Hc. cbn beta in Hc. unfold well_ordered in Hc.
    apply andb_prop in Hc as [Hx Hy]. apply Z.leb_le in Hx, Hy. now split.
  - intros st. eexists _, _, (render size).
    split; [apply create_guitar_icon_run; lia|].
    cbn [images]. rewrite lookup_app_r by lia. now rewrite Nat.sub_diag.
  - repeat split.
Qed.

Lemma create_guitar_icon_total_witness :
  0 < 16 /\ @draws_and_returns ideal_raster 16 /\ truncated_at_16.
Proof.
  split; [lia | apply (@create_guitar_icon_total ideal_raster 16); lia].
Defined.

(** ** Sample pixels of the 512 canvas *)

Lemma pixel_among_candidates `{Rasteriser} (size x y : Z) :
  0 <= x < size -> 0 <= y < size ->
  exists c, getpixel (render size) x y = Some (default transparent c) /\
            c ∈ candidates (guitar_shapes size) x y.
Proof.
  intros Hx Hy. exists (top_ink (guitar_shapes size) x y).
  split; [now apply getpixel_render | apply top_ink_candidates].
Qed.

(** Reads a pixel of [render size] whose candidates evaluate to a short list. *)
Ltac read_pixel size x y c Hc Hin :=
  destruct (pixel_among_candidates size x y ltac:(lia) ltac:(lia)) as (c & Hc & Hin);
  let l := eval vm_compute in (candidates (guitar_shapes size) x y) in
  change (c ∈ l) in Hin;
  repeat match type of Hin with
         | _ ∈ _ :: _ => apply elem_of_cons in Hin as [-> | Hin]
         | _ ∈ [] => apply elem_of_nil in Hin; destruct Hin
         end.

(** C3, as amended.  In the canvas returned by [create_guitar_icon 512] the
    pixel (0,0) is fully transparent; the pixel (256,256) is not background:
    it carries the sound-hole fill (255,107,107,255) or the body fill
    (255,255,255,240); the background fill shows at (256,430). *)
Theorem corner_and_centre_512 `{Rasteriser} : corner_and_centre_as_painted.
Proof.
  intros st. exists (render 512).
  split; [apply returned_canvas_render; lia|].
  split; [|split].
  - read_pixel 512 0 0 c Hc Hin. exact Hc.
  - read_pixel 512 256 256 c Hc Hin; [left | right]; exact Hc.
  - read_pixel 512 256 430 c Hc Hin. exact Hc.
Qed.

(** C3, as stated, fails for every rasteriser: the centre pixel of the 512
    canvas is never the background fill. *)
Lemma centre_512_not_background :
  ~ exists R : Rasteriser, @corner_and_centre_as_specified R.
Proof.
  intros [R Hclaim]. destruct (Hclaim empty_world) as (im & Him & _ & Hcentre).
  rewrite returned_canvas_render in Him by lia. injection Him as <-.
  read_pixel 512 256 256 c Hc Hin; rewrite Hc in Hcentre; discriminate.
Qed.

(** ** The sound hole *)

Section SoundHole.
Context `{Rasteriser}.

Lemma top_ink_app (l1 l2 : list call) (x y : Z) :
  top_ink (l1 ++ l2) x y =
  match top_ink l2 x y with
  | Some c => Some c
  | None => top_ink l1 x y
  end.
Proof.
  induction l1 as [|[[s b] ink] l1 IH]; cbn [app top_ink].
  - now destruct (top_ink l2 x y).
  - rewrite IH. now destruct (top_ink l2 x y).
Qed.

(** From size 7 on the notes lie above the sound hole. *)
Lemma notes_above_sound_hole (size x y : Z) :
  7 <= size -> center size <= y ->
  top_ink (flat_map (note_calls size) note_positions) x y = None.
Proof.
  intros Hs Hy. apply top_ink_uncovered.
  cbn [flat_map note_calls note_positions app].
  repeat constructor; cbn [fst snd call_box]; apply outside_not_covered;
    unfold in_box, note_head_box, note_stem_box; cbn [bx0 bx1 by0 by1 fst snd];
    apply andb_false_iff; right; apply Z.leb_gt;
    unfold int_scaled, center in *; zdiv.
Qed.

Lemma sound_hole_pixel (size x y : Z) :
  7 <= size -> 0 <= x < size -> 0 <= y < size -> center size <= y ->
  getpixel (render size) x y =
  Some (if ellipse_mask (inner_hole_box size) x y then white_fill
        else if ellipse_mask (sound_hole_box size) x y then accent_fill
        else default transparent
               (top_ink (firstn 12 (guitar_shapes size)) x y)).
Proof.
  intros Hs Hx Hy Hc. rewrite getpixel_render by assumption.
  unfold guitar_shapes. cbn [firstn map app tuner_positions string_positions].
  change (top_ink ?l x y) with
    (top_ink (firstn 12 (guitar_shapes size) ++
              [(Ellipse, sound_hole_box size, accent_fill);
               (Ellipse, inner_hole_box size, white_fill)] ++
              flat_map (note_calls size) note_positions) x y) at 1.
  rewrite !top_ink_app, notes_above_sound_hole by assumption.
  cbn [top_ink covers].
  destruct (ellipse_mask (inner_hole_box size) x y); [reflexivity|].
  destruct (ellipse_mask (sound_hole_box size) x y); reflexivity.
Qed.

Lemma in_canvas_render (size x y : Z) :
  in_canvas (render size) x y = true -> 0 <= x < size /\ 0 <= y < size.
Proof.
  unfold in_canvas. rewrite render_width, render_height. intros Hin.
  apply andb_prop in Hin as [Hin Hy2]. apply andb_prop in Hin as [Hin Hy1].
  apply andb_prop in Hin as [Hx1 Hx2].
  apply Z.leb_le in Hx1, Hy1. apply Z.ltb_lt in Hx2, Hy2. lia.
Qed.

Lemma inner_box_below_centre (size x y : Z) :
  0 <= size -> in_box (inner_hole_box size) x y = true -> center size <= y.
Proof.
  unfold in_box, inner_hole_box; cbn [bx0 bx1 by0 by1]. intros Hs Hin.
  apply andb_prop in Hin as [Hin _]. apply andb_prop in Hin as [_ Hy].
  apply Z.leb_le in Hy. unfold int_scaled, center in *. zdiv.
Qed.

Lemma outer_box_below_centre (size x y : Z) :
  0 <= size -> in_box (sound_hole_box size) x y = true -> center size <= y.
Proof.
  unfold in_box, sound_hole_box; cbn [bx0 bx1 by0 by1]. intros Hs Hin.
  apply andb_prop in Hin as [Hin _]. apply andb_prop in Hin as [_ Hy].
  apply Z.leb_le in Hy. lia.
Qed.

Lemma sound_hole_calls_hold (size : Z) : sound_hole_calls size.
Proof.
  repeat split; unfold sound_hole_box, inner_hole_box; f_equal; lia.
Qed.

End SoundHole.

(** Pixels on an axis of a box, at least one pixel inside of it, are in its
    core. *)
Lemma in_core_on_axis (b : box) (x y : Z) :
  2 <= box_w b -> 2 <= box_h b ->
  (off_y b y = 0 /\ Z.abs (off_x b x) <= box_w b - 2) \/
  (off_x b x = 0 /\ Z.abs (off_y b y) <= box_h b - 2) ->
  in_core b x y = true.
Proof.
  intros Hw Hh Haxis. unfold in_core.
  repeat (apply andb_true_intro; split); apply Z.leb_le; try lia.
  destruct Haxis as [[-> Hx] | [-> Hy]]; cbn [Z.abs]; nia.
Qed.

Lemma ring_sample_red `{Rasteriser} (size x y : Z) :
  7 <= size -> int_scaled size 30 + 2 <= int_scaled size 40 ->
  (x, y) ∈ ring_samples size ->
  getpixel (render size) x y = Some accent_fill.
Proof.
  intros Hs Hr Hin. unfold ring_samples in Hin.
  assert (Hcore : in_core (sound_hole_box size) x y = true
                  /\ in_box (inner_hole_box size) x y = false
                  /\ 0 <= x < size /\ 0 <= y < size /\ center size <= y).
  { repeat match type of Hin with
           | _ ∈ _ :: _ => apply elem_of_cons in Hin as [Heq | Hin]
           | _ ∈ [] => apply elem_of_nil in Hin; destruct Hin
           end;
      injection Heq as -> ->;
      (split; [|split];
       [ apply in_core_on_axis;
         unfold sound_hole_box, box_w, box_h, off_x, off_y;
         cbn [bx0 bx1 by0 by1]; unfold int_scaled, center in *; zdiv
       | unfold in_box, inner_hole_box; cbn [bx0 bx1 by0 by1];
         rewrite !andb_false_iff, !Z.leb_gt;
         unfold int_scaled, center in *; zdiv
       | unfold int_scaled, center in *; zdiv ]). }
  destruct Hcore as (Hcore & Hout & Hx & Hy & Hc).
  rewrite sound_hole_pixel by assumption.
  rewrite (outside_not_covered Ellipse _ _ _ Hout : ellipse_mask _ _ _ = false).
  now rewrite (ellipse_core _ _ _ Hcore).
Qed.

(** C6, as amended.  For every size from 7 on: the sound hole is drawn as a
    filled ellipse in the box of radius [int(40*scale)] around the point
    [int(40*scale)] below the centre, fill (255,107,107,255), then a filled
    ellipse of radius [int(30*scale)] around the same point, fill
    (255,255,255,255); in the returned canvas every pixel the inner disc
    covers is opaque white and every pixel the outer disc covers outside of it
    is opaque red.  From size 18 on the centre of the sound hole is white, and
    where the two radii differ by 2 or more the pixels next to the inner disc
    on both axes are red. *)
Theorem sound_hole_ring `{Rasteriser} (size : Z) :
  7 <= size -> sound_hole_as_painted size.
Proof.
  intros Hs st. exists (render size).
  split; [apply returned_canvas_render; lia|].
  split; [apply sound_hole_calls_hold|].
  split; [|split; [|split]].
  - intros x y Hin Hm. apply in_canvas_render in Hin as [Hx Hy].
    rewrite sound_hole_pixel; try assumption.
    + now rewrite Hm.
    + apply (inner_box_below_centre size x y); [lia|]. now apply ellipse_in_box.
  - intros x y Hin Hout Hinn. apply in_canvas_render in Hin as [Hx Hy].
    rewrite sound_hole_pixel; try assumption.
    + now rewrite Hinn, Hout.
    + apply (outer_box_below_centre size x y); [lia|]. now apply ellipse_in_box.
  - intros Hbig. unfold centre_white.
    rewrite sound_hole_pixel; try assumption;
      try (unfold int_scaled, center; zdiv).
    rewrite ellipse_core; [reflexivity|].
    apply in_core_on_axis;
      unfold inner_hole_box, box_w, box_h, off_x, off_y;
      cbn [bx0 bx1 by0 by1]; unfold int_scaled, center; zdiv.
  - intros Hr. apply Forall_forall. intros [x y] Hin. cbn [fst snd].
    now apply ring_sample_red.
Qed.

Lemma sound_hole_ring_witness :
  7 <= 512 /\ @sound_hole_as_painted ideal_raster 512.
Proof.
  split; [lia | apply (@sound_hole_ring ideal_raster 512); lia].
Defined.

(** C6, as stated, fails at size 4 for every rasteriser: both radii truncate
    to 0, and the stems of the notes, drawn last, paint the centre of the
    sound hole red. *)
Lemma sound_hole_centre_red_at_4 :
  ~ exists R : Rasteriser, @sound_hole_as_specified R 4.
Proof.
  intros [R Hclaim].
  destruct (Hclaim empty_world) as (im & Him & _ & _ & _ & Hcentre).
  rewrite returned_canvas_render in Him by lia. injection Him as <-.
  unfold centre_white in Hcentre.
  change (center 4) with 2 in Hcentre.
  change (2 + int_scaled 4 40) with 2 in Hcentre.
  read_pixel 4 2 2 c Hc Hin. rewrite Hc in Hcentre. discriminate.
Qed.

(** ** Scaling of the drawing coordinates *)

(** C5.  Each note glyph is a filled ellipse (the head) and a filled
    rectangle (the stem), both (255,107,107,255); the stem spans from
    [int(16*scale)] above to [int(16*scale) // 2] below the note position.
    Its width, however, is 4 pixels at every size and not [4*scale]: at size
    1024, where [int(4*scale)] is 8 and the strings are 8 wide, the stem box
    is [406, 320, 410, 368]. *)
Theorem note_stem_width_fixed :
  (forall size pos, In pos note_positions -> note_glyph_as_painted size pos) /\
  int_scaled 1024 4 = 8 /\
  box_w (string_box 1024 (-100)) = 8 /\
  note_stem_box 1024 (-60, -80) = Box 406 320 410 368 /\
  guitar_shapes 1024 !! 15%nat = Some (Rectangle, Box 406 320 410 368, accent_fill).
Proof.
  split; [|repeat split].
  intros size pos Hpos. unfold note_glyph_as_painted.
  repeat split; try (unfold note_stem_box, note_head_box, box_w; cbn [bx0 bx1 by0 by1]; lia).
  - unfold guitar_shapes. rewrite !in_app_iff. do 4 right.
    apply in_flat_map. exists pos. split; [exact Hpos | now left].
  - unfold guitar_shapes. rewrite !in_app_iff. do 4 right.
    apply in_flat_map. exists pos. split; [exact Hpos | right; now left].
Qed.

(** C4.  From size 512 to size 1024 the scale doubles and no division
    truncates, at either size.  Every coordinate and radius of every call
    doubles, except in the two note stems (calls 15 and 17): their horizontal
    coordinates are 202..206 and 322..326 at 512 but 406..410 and 646..650 at
    1024, the width staying 4.  Between sizes 16 and 1024 the stem width is
    off the scaling law by more than three pixels at either size. *)
Theorem note_stem_breaks_scaling :
  mismatches 0 (map (fun c => map (Z.mul 2) (coords c)) (guitar_shapes 512))
               (map coords (guitar_shapes 1024)) = [15%nat; 17%nat] /\
  coords (Rectangle, note_stem_box 512 (-60, -80), accent_fill) = [202; 160; 206; 184] /\
  coords (Rectangle, note_stem_box 1024 (-60, -80), accent_fill) = [406; 320; 410; 368] /\
  coords (Rectangle, note_stem_box 512 (60, -80), accent_fill) = [322; 160; 326; 184] /\
  coords (Rectangle, note_stem_box 1024 (60, -80), accent_fill) = [646; 320; 650; 368] /\
  ~ scaled_within 3 16 1024 (box_w (note_stem_box 16 (-60, -80)))
                             (box_w (note_stem_box 1024 (-60, -80))).
Proof.
  repeat split; try (vm_compute; reflexivity).
  unfold scaled_within. vm_compute. intros Hle. now apply Hle.
Qed.

Lemma Forall2_through {A B C} (P : A -> C -> Prop) (Q : B -> C -> Prop)
    (R : A -> B -> Prop) (l1 : list A) (l2 : list B) (d : list C) :
  (forall a b z, P a z -> Q b z -> R a b) ->
  Forall2 P l1 d -> Forall2 Q l2 d -> Forall2 R l1 l2.
Proof.
  intros HR H1. revert l2. induction H1 as [|a z l1 d Ha _ IH]; intros l2 H2.
  - inversion H2; subst. constructor.
  - inversion H2 as [|b z' l2' d' Hb H2']; subst. constructor; [eauto | now apply IH].
Qed.

(** Every coordinate of every call but the stems stays within three pixels of
    its value at 512 times [size / 512]. *)
Lemma near_design (size : Z) (i : nat) (c d : call) :
  0 < size ->
  guitar_shapes size !! i = Some c -> guitar_shapes 512 !! i = Some d ->
  is_stem i = false ->
  Forall2 (fun v v0 => Z.abs (512 * v - size * v0) <= 3 * 512) (coords c) (coords d).
Proof.
  intros Hs Hc Hd Hi.
  do 18 (destruct i as [|i]; [
    cbn in Hi; try discriminate Hi;
    injection Hc as <-; vm_compute in Hd; injection Hd as <-;
    cbn [coords app];
    repeat (first [apply List.Forall2_nil | apply List.Forall2_cons]);
    unfold background_box, body_box, neck_box, head_box, tuner_box, string_box,
      sound_hole_box, inner_hole_box, note_head_box, note_stem_box;
    cbn [bx0 bx1 by0 by1 fst snd]; unfold int_scaled, center; zdiv |]).
  discriminate Hc.
Qed.

Lemma scaled_within_via_design (s1 s2 a b z : Z) :
  0 < s1 -> 0 < s2 ->
  Z.abs (512 * a - s1 * z) <= 3 * 512 ->
  Z.abs (512 * b - s2 * z) <= 3 * 512 ->
  scaled_within 3 s1 s2 a b.
Proof.
  intros H1 H2 Ha Hb. unfold scaled_within.
  assert (Heq : 512 * (s1 * b - s2 * a)
                = s1 * (512 * b - s2 * z) - s2 * (512 * a - s1 * z)) by ring.
  apply Z.abs_le in Ha, Hb. apply Z.abs_le. nia.
Qed.

(** The scaling law holds for every call but the note stems: between any two
    positive sizes, each coordinate and each corner radius scales by
    [s2 / s1] up to three pixels at either size. *)
Theorem scaling_law_but_stems (s1 s2 : Z) (i : nat) (c1 c2 : call) :
  0 < s1 -> 0 < s2 ->
  guitar_shapes s1 !! i = Some c1 -> guitar_shapes s2 !! i = Some c2 ->
  is_stem i = false ->
  Forall2 (scaled_within 3 s1 s2) (coords c1) (coords c2).
Proof.
  intros H1 H2 Hc1 Hc2 Hi.
  assert (Hd : exists d, guitar_shapes 512 !! i = Some d).
  { apply lookup_lt_is_Some. apply lookup_lt_Some in Hc1.
    unfold guitar_shapes in *. cbn in *. exact Hc1. }
  destruct Hd as [d Hd].
  eapply Forall2_through;
    [ | exact (near_design s1 i c1 d H1 Hc1 Hd Hi)
      | exact (near_design s2 i c2 d H2 Hc2 Hd Hi) ].
  intros a b z Ha Hb. now apply (scaled_within_via_design s1 s2 a b z).
Qed.

Lemma scaling_law_but_stems_witness :
  Forall2 (scaled_within 3 16 1024)
    (coords (Ellipse, body_box 16, body_fill))
    (coords (Ellipse, body_box 1024, body_fill)).
Proof.
  apply (scaling_law_but_stems 16 1024 1); [lia | lia | reflexivity | reflexivity | reflexivity].
Defined.

(** ** The file system *)

Lemma saves_app (t1 t2 : list event) : saves (t1 ++ t2) = saves t1 ++ saves t2.
Proof. unfold saves. apply flat_map_app. Qed.

Lemma saves_made_dirs (made : list path) : saves (map MadeDir made) = [].
Proof. induction made as [|p made IH]; [reflexivity | exact IH]. Qed.

(** [os.makedirs] only adds [MadeDir] events, whatever its outcome. *)
Lemma makedirs_from_trace (rest : list string) (here : path) (ok : bool) (st : world) :
  exists made,
    trace (final_world (makedirs_from here rest ok st)) = trace st ++ map MadeDir made /\
    images (final_world (makedirs_from here rest ok st)) = images st.
Proof.
  revert here st. induction rest as [|c rest IH]; intros here st.
  - exists []. cbn. now rewrite app_nil_r.
  - cbn [makedirs_from]. destruct (fs st !! (here ++ [c])) as [[|fmt im]|] eqn:Hp.
    + destruct rest as [|c' rest'].
      * exists []. destruct ok; cbn; now rewrite app_nil_r.
      * apply IH.
    + exists []. destruct rest; cbn; now rewrite app_nil_r.
    + destruct (IH (here ++ [c]) (mkdir (here ++ [c]) st)) as (made & Htr & Him).
      exists ((here ++ [c]) :: made). rewrite Htr, Him. cbn [mkdir trace images map].
      now rewrite <- app_assoc.
Qed.

(** A directory stays a directory. *)
Lemma makedirs_from_keeps_dirs (rest : list string) (here : path) (ok : bool)
    (st : world) (q : path) :
  fs st !! q = Some Dir ->
  fs (final_world (makedirs_from here rest ok st)) !! q = Some Dir.
Proof.
  revert here st. induction rest as [|c rest IH]; intros here st Hq; [exact Hq|].
  cbn [makedirs_from]. destruct (fs st !! (here ++ [c])) as [[|fmt im]|] eqn:Hp.
  - destruct rest as [|c' rest']; [destruct ok; exact Hq | now apply IH].
  - destruct rest; exact Hq.
  - apply IH. cbn [mkdir fs].
    destruct (decide (here ++ [c] = q)) as [->|Hne].
    + now rewrite lookup_insert_eq.
    + now rewrite lookup_insert_ne.
Qed.

(** When [os.makedirs] returns, the directory and all its parents exist. *)
Lemma makedirs_from_all_dirs (rest : list string) (here : path) (st st1 : world) :
  makedirs_from here rest true st = Ok tt st1 ->
  all_dirs (fs st1) here rest = true.
Proof.
  revert here st. induction rest as [|c rest IH]; intros here st Hrun; [reflexivity|].
  cbn [all_dirs]. cbn [makedirs_from] in Hrun.
  destruct (fs st !! (here ++ [c])) as [[|fmt im]|] eqn:Hp.
  - destruct rest as [|c' rest'].
    + injection Hrun as <-. now rewrite Hp.
    + pose proof (makedirs_from_keeps_dirs (c' :: rest') (here ++ [c]) true st _ Hp) as Hk.
      rewrite Hrun in Hk. cbn [final_world] in Hk. rewrite Hk. now apply (IH _ st).
  - destruct rest; discriminate Hrun.
  - assert (Hd : fs (mkdir (here ++ [c]) st) !! (here ++ [c]) = Some Dir)
      by (cbn [mkdir fs]; apply lookup_insert_eq).
    pose proof (makedirs_from_keeps_dirs rest (here ++ [c]) true _ _ Hd) as Hk.
    rewrite Hrun in Hk. cbn [final_world] in Hk. rewrite Hk.
    now apply (IH _ (mkdir (here ++ [c]) st)).
Qed.

(** Where the directories already exist, [os.makedirs] with [exist_ok]
    returns and changes nothing. *)
Lemma makedirs_from_existing (rest : list string) (here : path) (st : world) :
  all_dirs (fs st) here rest = true ->
  makedirs_from here rest true st = Ok tt st.
Proof.
  revert here. induction rest as [|c rest IH]; intros here Hall; [reflexivity|].
  cbn [all_dirs] in Hall. cbn [makedirs_from].
  destruct (fs st !! (here ++ [c])) as [[|fmt im]|]; try discriminate Hall.
  destruct rest as [|c' rest']; [reflexivity | now apply IH].
Qed.

(** Only paths below [here] are touched. *)
Lemma makedirs_from_elsewhere (rest : list string) (here : path) (ok : bool)
    (st : world) (q : path) :
  (forall k, (0 < k <= length rest)%nat -> q <> here ++ take k rest) ->
  fs (final_world (makedirs_from here rest ok st)) !! q = fs st !! q.
Proof.
  revert here st. induction rest as [|c rest IH]; intros here st Hq; [reflexivity|].
  assert (Hrest : forall k, (0 < k <= length rest)%nat ->
                            q <> (here ++ [c]) ++ take k rest).
  { intros k Hk. rewrite <- app_assoc. apply (Hq (S k)). cbn. lia. }
  cbn [makedirs_from]. destruct (fs st !! (here ++ [c])) as [[|fmt im]|] eqn:Hp.
  - destruct rest as [|c' rest']; [now destruct ok | now apply IH].
  - now destruct rest.
  - rewrite IH by exact Hrest. cbn [mkdir fs]. apply lookup_insert_ne.
    intros Heq. apply (Hq 1%nat); [cbn; lia|]. cbn. now rewrite take_0.
Qed.

Lemma dirs_free_insert (rest : list string) (p q : path) (m : gmap path node)
    (v : node) :
  (length q <= length p)%nat ->
  dirs_free (<[q := v]> m) p rest = dirs_free m p rest.
Proof.
  revert p. induction rest as [|c rest IH]; intros p Hlen; [reflexivity|].
  cbn [dirs_free]. rewrite lookup_insert_ne.
  - rewrite IH; [reflexivity|]. rewrite length_app. cbn. lia.
  - intros ->. rewrite length_app in Hlen. cbn in Hlen. lia.
Qed.

(** [os.makedirs] returns when no component is a regular file. *)
Lemma makedirs_from_ready (rest : list string) (here : path) (st : world) :
  dirs_free (fs st) here rest = true ->
  exists st1, makedirs_from here rest true st = Ok tt st1.
Proof.
  revert here st. induction rest as [|c rest IH]; intros here st Hfree.
  - now exists st.
  - cbn [dirs_free] in Hfree. cbn [makedirs_from].
    destruct (fs st !! (here ++ [c])) as [[|fmt im]|] eqn:Hp; try discriminate Hfree.
    + destruct rest as [|c' rest']; [now exists st | now apply IH].
    + apply IH. cbn [mkdir fs]. now rewrite dirs_free_insert.
Qed.

(** ** The batch driver *)

Section Driver.
Context `{Rasteriser}.

Lemma generate_icons_unfold (st : world) :
  generate_icons st =
  match os_makedirs output_dir true st with
  | Ok _ st1 =>
      match for_each sizes icon_round st1 with
      | Ok _ st2 => Ok tt (emit (Printed AllDone) st2)
      | Raise e st2 => Raise e st2
      end
  | Raise e st1 => Raise e st1
  end.
Proof.
  unfold generate_icons, mbind, M_bind, bind.
  destruct (os_makedirs output_dir true st) as [[] st1|e st1]; [|reflexivity].
  change (for_each sizes _ st1) with (for_each sizes icon_round st1).
  now destruct (for_each sizes icon_round st1) as [[] st2|e st2].
Qed.

Lemma parent_join (dir : path) (name : string) :
  parent (os_path_join dir name) = dir.
Proof. unfold parent, os_path_join. apply removelast_last. Qed.

Lemma join_not_dir (name : string) : os_path_join output_dir name <> output_dir.
Proof.
  intros Heq. apply (f_equal length) in Heq. unfold os_path_join in Heq.
  rewrite length_app in Heq. cbn in Heq. lia.
Qed.

(** One round of the loop. *)
Lemma icon_round_run (size : Z) (filename : string) (st : world) :
  0 <= size ->
  is_dir (fs st) output_dir = true ->
  fs st !! os_path_join output_dir filename <> Some Dir ->
  icon_round (size, filename) st = Ok tt (icon_step st (size, filename)).
Proof.
  intros Hs Hdir Hfree.
  unfold icon_round, mbind, M_bind, bind, print.
  rewrite create_guitar_icon_run by exact Hs.
  unfold Image_save, emit. cbn [images fs trace].
  rewrite lookup_app_r by lia. rewrite Nat.sub_diag. cbn [lookup list_lookup].
  rewrite parent_join, Hdir.
  unfold icon_step. rewrite <- app_assoc. cbn [app].
  destruct (fs st !! os_path_join output_dir filename) as [[|fmt im]|];
    [now contradict Hfree | reflexivity | reflexivity].
Qed.

Lemma is_dir_icon_step (st : world) (e : Z * string) :
  is_dir (fs st) output_dir = true ->
  is_dir (fs (icon_step st e)) output_dir = true.
Proof.
  destruct e as [size filename]. unfold icon_step, is_dir, output_dir. cbn [fs].
  rewrite lookup_insert_ne; [auto|]. apply join_not_dir.
Qed.

Lemma for_each_icons (l : list (Z * string)) (st : world) :
  is_dir (fs st) output_dir = true ->
  Forall (fun e => 0 <= fst e /\
                   fs st !! os_path_join output_dir (snd e) <> Some Dir) l ->
  for_each l icon_round st = Ok tt (fold_left icon_step l st).
Proof.
  revert st. induction l as [|[size filename] l IH]; intros st Hdir Hl; [reflexivity|].
  inversion Hl as [|e l' [Hs Hfree] Hl']; subst. cbn [fst snd] in *.
  cbn [for_each fold_left]. unfold mbind, M_bind, bind.
  rewrite icon_round_run by assumption.
  apply IH; [now apply is_dir_icon_step|].
  eapply Forall_impl; [exact Hl'|].
  intros [size' name'] [Hs' Hfree']. cbn [fst snd] in *. split; [exact Hs'|].
  unfold icon_step. cbn [fs].
  destruct (decide (os_path_join output_dir filename = os_path_join output_dir name'))
    as [Heq|Hne].
  - rewrite Heq, lookup_insert_eq. discriminate.
  - now rewrite lookup_insert_ne.
Qed.

Lemma saves_fold (l : list (Z * string)) (st : world) :
  saves (trace (fold_left icon_step l st)) =
  saves (trace st)
  ++ map (fun '(size, filename) =>
            (os_path_join output_dir filename, PNG, render size)) l.
Proof.
  revert st. induction l as [|[size filename] l IH]; intros st.
  - cbn. now rewrite app_nil_r.
  - cbn [fold_left map]. rewrite IH. unfold icon_step. cbn [trace].
    rewrite saves_app. cbn. now rewrite <- app_assoc.
Qed.

Lemma fs_fold_elsewhere (l : list (Z * string)) (st : world) (q : path) :
  q ∉ map (fun e => os_path_join output_dir (snd e)) l ->
  fs (fold_left icon_step l st) !! q = fs st !! q.
Proof.
  revert st. induction l as [|[size filename] l IH]; intros st Hq; [reflexivity|].
  cbn [fold_left map snd] in *. apply not_elem_of_cons in Hq as [Hne Hq].
  rewrite IH by exact Hq. unfold icon_step. cbn [fs].
  now rewrite lookup_insert_ne.
Qed.

Lemma fs_fold_target (l : list (Z * string)) (st : world) (size : Z) (name : string) :
  NoDup (map snd l) -> (size, name) ∈ l ->
  fs (fold_left icon_step l st) !! os_path_join output_dir name
  = Some (File PNG (render size)).
Proof.
  revert st. induction l as [|[size' name'] l IH]; intros st Hnd Hin.
  - now apply elem_of_nil in Hin.
  - cbn [map snd] in Hnd. apply NoDup_cons in Hnd as [Hfresh Hnd].
    cbn [fold_left]. apply elem_of_cons in Hin as [Heq|Hin].
    + injection Heq as <- <-. rewrite fs_fold_elsewhere.
      * unfold icon_step. cbn [fs]. apply lookup_insert_eq.
      * intros Hin. apply list_elem_of_fmap in Hin as ([s n] & Heq & Hin).
        cbn [snd] in Heq. unfold os_path_join in Heq.
        apply app_inv_head in Heq. injection Heq as ->.
        apply Hfresh. apply list_elem_of_fmap. now exists (s, n).
    + now apply IH.
Qed.

End Driver.

Section Run.
Context `{Rasteriser}.

Lemma all_dirs_is_dir (m : gmap path node) :
  all_dirs m [] output_dir = true -> is_dir m output_dir = true.
Proof.
  unfold output_dir. cbn [all_dirs app is_dir].
  destruct (m !! ["guitarPlayer"]) as [[|]|]; try discriminate.
  destruct (m !! ["guitarPlayer"; "Assets.xcassets"]) as [[|]|]; try discriminate.
  now destruct (m !! ["guitarPlayer"; "Assets.xcassets"; "AppIcon.appiconset"]) as [[|]|].
Qed.

Lemma sizes_nonnegative : Forall (fun e : Z * string => 0 <= fst e) sizes.
Proof. unfold sizes. repeat constructor; cbn; lia. Qed.

Lemma sizes_names_distinct : NoDup (map snd sizes).
Proof. apply (bool_decide_unpack _). vm_compute. reflexivity. Qed.

Lemma target_paths :
  map fst targets = map (fun e => os_path_join output_dir (snd e)) sizes.
Proof. reflexivity. Qed.

Lemma target_off_the_way (name : string) (k : nat) :
  os_path_join output_dir name <> [] ++ take k output_dir.
Proof.
  intros Heq. apply (f_equal length) in Heq. unfold os_path_join in Heq.
  rewrite length_app, length_app, length_take in Heq. cbn in Heq. lia.
Qed.

Lemma off_the_way (q : path) (k : nat) :
  on_the_way q = false -> (0 < k <= length output_dir)%nat ->
  q <> [] ++ take k output_dir.
Proof.
  unfold on_the_way. rewrite !orb_false_iff, !bool_decide_eq_false.
  intros [[H1 H2] H3] Hk Heq. unfold output_dir in *. cbn in Hk.
  destruct k as [|[|[|[|k]]]]; try lia; cbn in Heq; congruence.
Qed.

(** A complete run, step by step. *)
Lemma generate_icons_run (st : world) :
  fs_ready (fs st) = true ->
  exists st1,
    os_makedirs output_dir true st = Ok tt st1 /\
    generate_icons st
      = Ok tt (emit (Printed AllDone) (fold_left icon_step sizes st1)) /\
    saves (trace st1) = saves (trace st) /\
    (forall q, on_the_way q = false -> fs st1 !! q = fs st !! q) /\
    (forall name, fs st1 !! os_path_join output_dir name
                  = fs st !! os_path_join output_dir name).
Proof.
  unfold fs_ready. intros Hready. apply andb_prop in Hready as [Hfree Htargets].
  destruct (makedirs_from_ready output_dir [] st Hfree) as [st1 Hmk].
  assert (Hname : forall name, fs st1 !! os_path_join output_dir name
                               = fs st !! os_path_join output_dir name).
  { intros name.
    pose proof (makedirs_from_elsewhere output_dir [] true st
                  (os_path_join output_dir name)) as Hel.
    rewrite Hmk in Hel. apply Hel. intros k _. apply target_off_the_way. }
  exists st1. split; [exact Hmk|]. split; [|split; [|split]].
  - rewrite generate_icons_unfold. unfold os_makedirs. rewrite Hmk.
    rewrite for_each_icons; [reflexivity | |].
    + apply all_dirs_is_dir. now apply (makedirs_from_all_dirs _ _ st).
    + rewrite forallb_forall in Htargets.
      apply Forall_forall. intros [size name] Hin. cbn [fst snd].
      split.
      * pose proof sizes_nonnegative as Hnn. rewrite Forall_forall in Hnn.
        apply (Hnn (size, name) Hin).
      * rewrite Hname.
        specialize (Htargets (os_path_join output_dir name, size)).
        cbn [fst] in Htargets. intros Hdir. rewrite Hdir in Htargets.
        assert (Hf : false = true); [|discriminate Hf].
        apply Htargets. unfold targets. apply in_map_iff.
        exists (size, name). split; [reflexivity|]. now apply list_elem_of_In.
  - destruct (makedirs_from_trace output_dir [] true st) as (made & Htr & _).
    rewrite Hmk in Htr. cbn [final_world] in Htr.
    now rewrite Htr, saves_app, saves_made_dirs, app_nil_r.
  - intros q Hq.
    pose proof (makedirs_from_elsewhere output_dir [] true st q) as Hel.
    rewrite Hmk in Hel. apply Hel. intros k Hk. now apply off_the_way.
  - exact Hname.
Qed.

End Run.

(** C1, as amended.  From any state of the file system in which no component
    of the output directory is a regular file and no target name is taken by
    a directory, a run of [generate_icons] completes, saves exactly the ten
    PNG files of the table into guitarPlayer/Assets.xcassets/AppIcon.appiconset,
    in table order, each holding the canvas [create_guitar_icon size] returns,
    of [size] x [size] pixels; no other path changes but the output directory
    and its parents. *)
Theorem generate_icons_writes_table `{Rasteriser} (st : world) :
  fs_ready (fs st) = true -> generate_icons_completes st.
Proof.
  intros Hready.
  destruct (generate_icons_run st Hready) as (st1 & Hmk & Hrun & Hsaves & Hel & Hname).
  exists (emit (Printed AllDone) (fold_left icon_step sizes st1)).
  split; [exact Hrun|]. split; [|split].
  - unfold emit. cbn [trace]. rewrite saves_app, saves_fold, Hsaves. cbn [saves flat_map].
    now rewrite app_nil_r.
  - apply Forall_forall. intros [size name] Hin.
    exists (render size). unfold emit. cbn [fs].
    split; [apply fs_fold_target; [apply sizes_names_distinct | exact Hin]|].
    split; [|split; [apply render_width | apply render_height]].
    apply returned_canvas_render.
    pose proof sizes_nonnegative as Hnn. rewrite Forall_forall in Hnn.
    apply (Hnn (size, name) Hin).
  - intros q Hway Htarget. unfold emit. cbn [fs].
    rewrite fs_fold_elsewhere; [now apply Hel|].
    unfold is_target in Htarget. apply bool_decide_eq_false in Htarget.
    now rewrite target_paths in Htarget.
Qed.

Lemma generate_icons_writes_table_witness :
  fs_ready (fs empty_world) = true /\
  @generate_icons_completes ideal_raster empty_world.
Proof.
  split; [reflexivity |
          apply (@generate_icons_writes_table ideal_raster empty_world); reflexivity].
Defined.

(** C1, as stated, fails for every rasteriser: where [guitarPlayer] is a
    regular file, [os.makedirs] raises and no file is written. *)
Lemma generate_icons_blocked :
  ~ exists R : Rasteriser, @generate_icons_as_specified R.
Proof.
  intros [R Hclaim]. destruct (Hclaim blocked_world) as (st' & Hrun & _).
  rewrite generate_icons_unfold in Hrun.
  assert (Hmk : os_makedirs output_dir true blocked_world
                = Raise NotADirectoryError blocked_world)
    by (vm_compute; reflexivity).
  rewrite Hmk in Hrun. discriminate Hrun.
Qed.

(** C10.  Table entries of the same size are saved with identical content:
    after a run, icon_16x16@2x.png and icon_32x32.png, icon_128x128@2x.png and
    icon_256x256.png, icon_256x256@2x.png and icon_512x512.png are
    pixel-identical, file by file. *)
Theorem twin_files_pixel_identical `{Rasteriser} (st : world) :
  fs_ready (fs st) = true -> twin_files_identical st.
Proof.
  intros Hready.
  destruct (generate_icons_run st Hready) as (st1 & _ & Hrun & _).
  exists (emit (Printed AllDone) (fold_left icon_step sizes st1)).
  split; [exact Hrun|].
  assert (Hfile : forall size name, (size, name) ∈ sizes ->
            fs (emit (Printed AllDone) (fold_left icon_step sizes st1))
               !! os_path_join output_dir name = Some (File PNG (render size))).
  { intros size name Hin. unfold emit. cbn [fs].
    apply fs_fold_target; [apply sizes_names_distinct | exact Hin]. }
  repeat split.
  - exists (render 32), (render 32). repeat split; apply Hfile; unfold sizes; repeat constructor.
  - exists (render 256), (render 256). repeat split; apply Hfile; unfold sizes; repeat constructor.
  - exists (render 512), (render 512). repeat split; apply Hfile; unfold sizes; repeat constructor.
Qed.

Lemma twin_files_pixel_identical_witness :
  fs_ready (fs empty_world) = true /\
  @twin_files_identical ideal_raster empty_world.
Proof.
  split; [reflexivity |
          apply (@twin_files_pixel_identical ideal_raster empty_world); reflexivity].
Defined.

(** ** Directory first *)

Section DirectoryFirst.
Context `{Rasteriser}.

Lemma icon_round_trace (size : Z) (name : string) (st : world) :
  0 <= size ->
  exists later, trace (final_world (icon_round (size, name) st)) = trace st ++ later.
Proof.
  intros Hs. unfold icon_round, mbind, M_bind, bind, print.
  rewrite create_guitar_icon_run by exact Hs.
  unfold Image_save, emit. cbn [images fs trace].
  rewrite lookup_app_r by lia. rewrite Nat.sub_diag. cbn [lookup list_lookup].
  destruct (is_dir (fs st) (parent (os_path_join output_dir name))).
  - destruct (fs st !! os_path_join output_dir name) as [[|fmt im]|];
      cbn [final_world trace]; rewrite <- ?app_assoc; eauto.
  - cbn [final_world trace]. eauto.
Qed.

Lemma for_each_icons_trace (l : list (Z * string)) (st : world) :
  Forall (fun e => 0 <= fst e) l ->
  exists later, trace (final_world (for_each l icon_round st)) = trace st ++ later.
Proof.
  revert st. induction l as [|[size name] l IH]; intros st Hl.
  - exists []. cbn. now rewrite app_nil_r.
  - inversion Hl as [|e l' Hs Hl']; subst. cbn [fst] in Hs.
    cbn [for_each]. unfold mbind, M_bind, bind.
    destruct (icon_round_trace size name st Hs) as [later1 H1].
    destruct (icon_round (size, name) st) as [[] st2|e st2]; cbn [final_world] in *.
    + destruct (IH st2 Hl') as [later2 H2]. exists (later1 ++ later2).
      now rewrite H2, H1, app_assoc.
    + now exists later1.
Qed.

End DirectoryFirst.

(** C8.  [generate_icons] creates the output directory, parents included,
    before it saves anything: once [os.makedirs] has returned the directory
    and its parents exist and no file has been saved yet; if it raises, the
    run raises with no file saved.  Creation is idempotent: where the
    directory exists already the call returns without error and without
    changing anything. *)
Theorem output_dir_created_first `{Rasteriser} (st : world) : output_dir_first st.
Proof.
  unfold output_dir_first. split; [|split].
  - destruct (os_makedirs output_dir true st) as [[] st1|e st1] eqn:Hmk.
    + assert (Hall : all_dirs (fs st1) [] output_dir = true)
        by now apply (makedirs_from_all_dirs _ _ st).
      split; [exact Hall|]. split; [now apply all_dirs_is_dir|].
      split; [|split].
      * destruct (makedirs_from_trace output_dir [] true st) as (made & Htr & _).
        unfold os_makedirs in Hmk. rewrite Hmk in Htr. cbn [final_world] in Htr.
        now rewrite Htr, saves_app, saves_made_dirs, app_nil_r.
      * rewrite generate_icons_unfold, Hmk.
        destruct (for_each_icons_trace sizes st1 sizes_nonnegative) as [later Hl].
        destruct (for_each sizes icon_round st1) as [[] st2|e st2];
          cbn [final_world] in *.
        -- exists (later ++ [Printed AllDone]). unfold emit. cbn [trace].
           now rewrite Hl, app_assoc.
        -- now exists later.
      * now apply makedirs_from_existing.
    + split; [now rewrite generate_icons_unfold, Hmk|].
      destruct (makedirs_from_trace output_dir [] true st) as (made & Htr & _).
      unfold os_makedirs in Hmk. rewrite Hmk in Htr. cbn [final_world] in Htr.
      now rewrite Htr, saves_app, saves_made_dirs, app_nil_r.
  - apply makedirs_from_ready.
  - apply makedirs_from_existing.
Qed.

(** ** Runs that complete *)

Section OnlyIfReady.
Context `{Rasteriser}.

Lemma makedirs_from_returns_free (rest : list string) (here : path) (st st1 : world) :
  makedirs_from here rest true st = Ok tt st1 ->
  dirs_free (fs st) here rest = true.
Proof.
  revert here st. induction rest as [|c rest IH]; intros here st Hrun; [reflexivity|].
  cbn [dirs_free]. cbn [makedirs_from] in Hrun.
  destruct (fs st !! (here ++ [c])) as [[|fmt im]|] eqn:Hp.
  - destruct rest as [|c' rest']; [reflexivity | now apply (IH _ st)].
  - destruct rest; discriminate Hrun.
  - apply IH in Hrun. cbn [mkdir fs] in Hrun. now rewrite dirs_free_insert in Hrun.
Qed.

Lemma icon_round_returns (size : Z) (name : string) (st st2 : world) :
  0 <= size ->
  icon_round (size, name) st = Ok tt st2 ->
  fs st !! os_path_join output_dir name <> Some Dir /\
  st2 = icon_step st (size, name).
Proof.
  intros Hs. unfold icon_round, mbind, M_bind, bind, print.
  rewrite create_guitar_icon_run by exact Hs.
  unfold Image_save, emit. cbn [images fs trace].
  rewrite lookup_app_r by lia. rewrite Nat.sub_diag. cbn [lookup list_lookup].
  unfold icon_step. rewrite <- app_assoc. cbn [app].
  destruct (is_dir (fs st) (parent (os_path_join output_dir name))); [|discriminate].
  destruct (fs st !! os_path_join output_dir name) as [[|fmt im]|];
    [discriminate | | ]; intros [= <-]; split; (discriminate || reflexivity).
Qed.

Lemma for_each_icons_returns (l : list (Z * string)) (st st' : world) :
  Forall (fun e => 0 <= fst e) l -> NoDup (map snd l) ->
  for_each l icon_round st = Ok tt st' ->
  Forall (fun e => fs st !! os_path_join output_dir (snd e) <> Some Dir) l.
Proof.
  revert st. induction l as [|[size name] l IH]; intros st Hnn Hnd Hrun; [constructor|].
  inversion Hnn as [|e l' Hs Hnn']; subst. cbn [fst] in Hs.
  cbn [map snd] in Hnd. apply NoDup_cons in Hnd as [Hfresh Hnd].
  cbn [for_each] in Hrun. unfold mbind, M_bind, bind in Hrun.
  destruct (icon_round (size, name) st) as [[] st2|e st2] eqn:Hround; [|discriminate].
  apply icon_round_returns in Hround as [Hfree ->]; [|exact Hs].
  constructor; [exact Hfree|].
  specialize (IH _ Hnn' Hnd Hrun).
  rewrite Forall_forall in IH. apply Forall_forall. intros [size' name'] Hin.
  specialize (IH _ Hin). cbn [snd] in *. unfold icon_step in IH. cbn [fs] in IH.
  rewrite lookup_insert_ne in IH; [exact IH|].
  unfold os_path_join. intros Heq. apply app_inv_head in Heq. injection Heq as ->.
  apply Hfresh. apply list_elem_of_fmap. now exists (size', name').
Qed.

End OnlyIfReady.

(** A run of [generate_icons] returns only from a state in which no component
    of the output directory is a regular file and no target name is taken by
    a directory. *)
Theorem generate_icons_returns_only_if_ready `{Rasteriser} (st st' : world) :
  generate_icons st = Ok tt st' -> fs_ready (fs st) = true.
Proof.
  rewrite generate_icons_unfold. intros Hrun.
  destruct (os_makedirs output_dir true st) as [[] st1|e st1] eqn:Hmk; [|discriminate].
  destruct (for_each sizes icon_round st1) as [[] st2|e st2] eqn:Hloop; [|discriminate].
  unfold fs_ready. apply andb_true_intro. split.
  - now apply (makedirs_from_returns_free _ _ st st1).
  - apply for_each_icons_returns in Hloop;
      [|apply sizes_nonnegative | apply sizes_names_distinct].
    rewrite Forall_forall in Hloop.
    apply forallb_forall. intros [p size] Hin. cbn [fst].
    unfold targets in Hin. apply in_map_iff in Hin as ([size' name] & Heq & Hin).
    injection Heq as <- <-.
    specialize (Hloop (size', name) (proj2 (list_elem_of_In _ _) Hin)). cbn [snd] in Hloop.
    pose proof (makedirs_from_elsewhere output_dir [] true st
                  (os_path_join output_dir name)) as Hel.
    unfold os_makedirs in Hmk. rewrite Hmk in Hel. cbn [final_world] in Hel.
    rewrite Hel in Hloop by (intros k _; apply target_off_the_way).
    now destruct (fs st !! os_path_join output_dir name) as [[|]|].
Qed.

Lemma generate_icons_returns_only_if_ready_witness :
  exists st', @generate_icons ideal_raster empty_world = Ok tt st' /\
              fs_ready (fs empty_world) = true.
Proof.
  destruct (@generate_icons_run ideal_raster empty_world eq_refl) as (st1 & _ & Hrun & _).
  eexists. split; [exact Hrun|].
  exact (@generate_icons_returns_only_if_ready ideal_raster empty_world _ Hrun).
Defined.

(** * Further properties *)

(** ** The renderer *)

Section RendererMore.
Context `{Rasteriser}.

(** From size 4 on every call draws inside the box of the background disc. *)
Lemma calls_inside_background (size x y : Z) :
  4 <= size ->
  Forall (fun c => in_box (call_box c) x y = true ->
                   in_box (background_box size) x y = true)
         (guitar_shapes size).
Proof.
  intros Hs. unfold guitar_shapes. cbn [map flat_map note_calls app
    tuner_positions string_positions note_positions].
  repeat constructor; cbn [call_box fst snd]; unfold in_box;
    unfold background_box, body_box, neck_box, head_box, tuner_box, string_box,
      sound_hole_box, inner_hole_box, note_head_box, note_stem_box;
    cbn [bx0 bx1 by0 by1 fst snd]; intros Hin;
    apply andb_prop in Hin as [Hin Hy1]; apply andb_prop in Hin as [Hin Hy0];
    apply andb_prop in Hin as [Hx0 Hx1];
    apply Z.leb_le in Hx0, Hx1, Hy0, Hy1;
    repeat (apply andb_true_intro; split); apply Z.leb_le;
    unfold int_scaled, center in *; zdiv.
Qed.

Lemma outside_background_uncovered (size x y : Z) :
  4 <= size -> in_box (background_box size) x y = false ->
  top_ink (guitar_shapes size) x y = None.
Proof.
  intros Hs Hout. apply top_ink_uncovered.
  eapply Forall_impl; [apply (calls_inside_background size x y Hs)|].
  intros [[s b] ink] Hin. cbn [fst snd call_box] in *.
  apply outside_not_covered. destruct (in_box b x y); [|reflexivity].
  rewrite Hin in Hout by reflexivity. discriminate Hout.
Qed.

(** A canvas pixel outside the box of the background disc needs a margin. *)
Lemma outside_background_large (size x y : Z) :
  0 <= x < size -> 0 <= y < size ->
  in_box (background_box size) x y = false -> 26 <= size.
Proof.
  intros Hx Hy Hout. unfold in_box, background_box in Hout.
  cbn [bx0 bx1 by0 by1] in Hout.
  rewrite !andb_false_iff, !Z.leb_gt in Hout.
  unfold int_scaled in *. zdiv.
Qed.

Lemma top_ink_from_calls (l : list call) (x y : Z) (c : rgba) :
  top_ink l x y = Some c -> c ∈ map snd l.
Proof.
  induction l as [|[[s b] ink] l IH]; cbn [top_ink map snd]; [discriminate|].
  destruct (top_ink l x y) as [c'|].
  - intros [= <-]. right. now apply IH.
  - destruct (covers s b x y); [|discriminate]. intros [= <-]. left.
Qed.

End RendererMore.

(** The margin of the background disc stays clear: for every positive size,
    each pixel of the returned canvas outside the box of the disc, that is
    less than [int(20*scale)] pixels from an edge, is fully transparent. *)
Theorem margin_stays_transparent `{Rasteriser} (size : Z) :
  0 < size -> margin_transparent size.
Proof.
  intros Hs st. exists (render size).
  split; [apply returned_canvas_render; lia|].
  intros x y Hin Hout. apply in_canvas_render in Hin as [Hx Hy].
  pose proof (outside_background_large size x y Hx Hy Hout) as Hbig.
  rewrite getpixel_render by assumption.
  rewrite outside_background_uncovered; [reflexivity | lia | exact Hout].
Qed.

Lemma margin_stays_transparent_witness :
  0 < 512 /\ @margin_transparent ideal_raster 512.
Proof.
  split; [lia | apply (@margin_stays_transparent ideal_raster 512); lia].
Defined.

(** No colour is blended: for every size from 0 on, each pixel of the
    returned canvas is (0,0,0,0) or one of the five fills of the source, so
    its alpha is 0, 200, 240 or 255. *)
Theorem canvas_uses_palette_only `{Rasteriser} (size : Z) :
  0 <= size -> palette_only size.
Proof.
  intros Hs st. exists (render size).
  split; [now apply returned_canvas_render|].
  intros x y c Hc. unfold render in Hc. rewrite getpixel_paint_all in Hc.
  destruct (in_canvas (blank size size transparent) x y); [|discriminate Hc].
  destruct (top_ink (guitar_shapes size) x y) as [k|] eqn:Htop;
    cbn [default blank im_pixel] in Hc; injection Hc as <-.
  - apply top_ink_from_calls in Htop.
    assert (Hall : Forall (fun k => k ∈ palette) (map snd (guitar_shapes size)))
      by (unfold guitar_shapes, palette; cbn; repeat constructor).
    rewrite Forall_forall in Hall. now apply Hall.
  - unfold palette. left.
Qed.

Lemma canvas_uses_palette_only_witness :
  0 <= 16 /\ @palette_only ideal_raster 16.
Proof.
  split; [lia | apply (@canvas_uses_palette_only ideal_raster 16); lia].
Defined.

(** At every multiple [512 * m] of the design size nothing is truncated:
    each call is the call of size 512 with every coordinate and radius
    multiplied by [m], except that the two stems keep their width of 4. *)
Theorem exact_at_multiples_of_512 (m : Z) (i : nat) (c d : call) :
  0 < m ->
  guitar_shapes (512 * m) !! i = Some c -> guitar_shapes 512 !! i = Some d ->
  magnified m i c d.
Proof.
  intros Hm Hc Hd. unfold magnified.
  do 18 (destruct i as [|i]; [
    injection Hc as <-; vm_compute in Hd; injection Hd as <-;
    cbn [is_stem Nat.eqb orb coords app map];
    unfold background_box, body_box, neck_box, head_box, tuner_box, string_box,
      sound_hole_box, inner_hole_box, note_head_box, note_stem_box;
    cbn [bx0 bx1 by0 by1 fst snd]; unfold int_scaled, center;
    repeat split; repeat f_equal; zdiv |]).
  discriminate Hc.
Qed.

Lemma exact_at_multiples_of_512_witness :
  magnified 2 15 (Rectangle, note_stem_box 1024 (-60, -80), accent_fill)
                 (Rectangle, note_stem_box 512 (-60, -80), accent_fill).
Proof.
  apply (exact_at_multiples_of_512 2 15); [lia | reflexivity | reflexivity].
Defined.

(** [create_guitar_icon] on every integer size: it raises exactly on the
    negative ones, with [ValueError] and without touching the world; at size
    0 it returns a canvas without pixels. *)
Theorem create_guitar_icon_size_outcome `{Rasteriser} (size : Z) (st : world) :
  size_outcome size st.
Proof.
  unfold size_outcome. destruct (size <? 0) eqn:Hneg.
  - unfold create_guitar_icon, mbind, M_bind, bind, Image_new. now rewrite Hneg.
  - apply Z.ltb_ge in Hneg. exists (render size).
    split; [now apply returned_canvas_render|].
    split; [apply render_width|]. split; [apply render_height|].
    intros -> x y. unfold getpixel, in_canvas.
    rewrite render_width, render_height.
    destruct (0 <=? x) eqn:Hx; [|reflexivity].
    replace (x <? 0) with false; [reflexivity|].
    symmetry. apply Z.ltb_ge. now apply Z.leb_le.
Qed.

(** ** The batch driver *)

Section DriverMore.
Context `{Rasteriser}.

Lemma missing_dirs_insert (rest : list string) (p q : path) (m : gmap path node)
    (v : node) :
  (length q <= length p)%nat ->
  missing_dirs (<[q := v]> m) p rest = missing_dirs m p rest.
Proof.
  revert p. induction rest as [|c rest IH]; intros p Hlen; [reflexivity|].
  cbn [missing_dirs]. rewrite lookup_insert_ne.
  - rewrite IH; [reflexivity|]. rewrite length_app. cbn. lia.
  - intros ->. rewrite length_app in Hlen. cbn in Hlen. lia.
Qed.

(** [os.makedirs] creates the missing directories, parents first. *)
Lemma makedirs_from_made (rest : list string) (here : path) (st st1 : world) :
  makedirs_from here rest true st = Ok tt st1 ->
  trace st1 = trace st ++ map MadeDir (missing_dirs (fs st) here rest).
Proof.
  revert here st. induction rest as [|c rest IH]; intros here st Hrun.
  - injection Hrun as <-. cbn. now rewrite app_nil_r.
  - cbn [makedirs_from] in Hrun. cbn [missing_dirs].
    destruct (fs st !! (here ++ [c])) as [[|fmt im]|] eqn:Hp.
    + destruct rest as [|c' rest'].
      * injection Hrun as <-. cbn. now rewrite app_nil_r.
      * now apply IH.
    + destruct rest; discriminate Hrun.
    + apply IH in Hrun. cbn [mkdir fs trace] in Hrun.
      rewrite missing_dirs_insert in Hrun by lia.
      rewrite Hrun, <- app_assoc. reflexivity.
Qed.

Lemma trace_fold (l : list (Z * string)) (st : world) :
  trace (fold_left icon_step l st) = trace st ++ flat_map round_events l.
Proof.
  revert st. induction l as [|[size name] l IH]; intros st.
  - cbn. now rewrite app_nil_r.
  - cbn [fold_left flat_map]. rewrite IH. unfold icon_step, round_events.
    cbn [trace]. now rewrite <- app_assoc.
Qed.

Lemma for_each_app {A} (l1 l2 : list A) (body : A -> M unit) (st : world) :
  for_each (l1 ++ l2) body st =
  match for_each l1 body st with
  | Ok _ st1 => for_each l2 body st1
  | Raise e st1 => Raise e st1
  end.
Proof.
  revert st. induction l1 as [|a l1 IH]; intros st; [reflexivity|].
  cbn [app for_each]. unfold mbind, M_bind, bind.
  destruct (body a st) as [[] st1|e st1]; [apply IH | reflexivity].
Qed.

End DriverMore.

(** The console and the disk, in order: a complete run creates the missing
    directories, parents first; then, for each table entry in order, prints
    its progress line and saves its file; and prints the completion line
    last. *)
Theorem generate_icons_trace `{Rasteriser} (st : world) :
  fs_ready (fs st) = true -> complete_trace st.
Proof.
  intros Hready.
  destruct (generate_icons_run st Hready) as (st1 & Hmk & Hrun & _).
  exists (emit (Printed AllDone) (fold_left icon_step sizes st1)).
  split; [exact Hrun|].
  unfold emit. cbn [trace]. rewrite trace_fold.
  rewrite (makedirs_from_made _ _ _ _ Hmk). now rewrite <- !app_assoc.
Qed.

Lemma generate_icons_trace_witness :
  fs_ready (fs empty_world) = true /\ @complete_trace ideal_raster empty_world.
Proof.
  split; [reflexivity |
          apply (@generate_icons_trace ideal_raster empty_world); reflexivity].
Defined.

Section Failures.
Context `{Rasteriser}.

Lemma taken_lookup (m : gmap path node) (entry : Z * string) :
  taken m entry = true <-> m !! os_path_join output_dir (snd entry) = Some Dir.
Proof.
  unfold taken, is_dir, os_path_join, output_dir. cbn [app].
  destruct (m !! _) as [[|fmt im]|]; split; (discriminate || reflexivity).
Qed.

Lemma is_dir_fold (l : list (Z * string)) (st : world) :
  is_dir (fs st) output_dir = true ->
  is_dir (fs (fold_left icon_step l st)) output_dir = true.
Proof.
  revert st. induction l as [|e l IH]; intros st Hdir; [exact Hdir|].
  cbn [fold_left]. apply IH. now apply is_dir_icon_step.
Qed.

(** A round whose file name is taken by a directory stops after its progress
    line. *)
Lemma icon_round_taken (size : Z) (name : string) (st : world) :
  0 <= size ->
  is_dir (fs st) output_dir = true ->
  fs st !! os_path_join output_dir name = Some Dir ->
  icon_round (size, name) st =
  Raise IsADirectoryError
    (mkWorld (images st ++ [render size]) (fs st)
             (trace st ++ [Printed (Generating name size)])).
Proof.
  intros Hs Hdir Htaken.
  unfold icon_round, mbind, M_bind, bind, print.
  rewrite create_guitar_icon_run by exact Hs.
  unfold Image_save, emit. cbn [images fs trace].
  rewrite lookup_app_r by lia. rewrite Nat.sub_diag. cbn [lookup list_lookup].
  now rewrite parent_join, Hdir, Htaken.
Qed.

Lemma icon_round_raises (size : Z) (name : string) (st st' : world) (e : exn) :
  0 <= size ->
  is_dir (fs st) output_dir = true ->
  icon_round (size, name) st = Raise e st' -> e = IsADirectoryError.
Proof.
  intros Hs Hdir.
  unfold icon_round, mbind, M_bind, bind, print.
  rewrite create_guitar_icon_run by exact Hs.
  unfold Image_save, emit. cbn [images fs trace].
  rewrite lookup_app_r by lia. rewrite Nat.sub_diag. cbn [lookup list_lookup].
  rewrite parent_join, Hdir.
  destruct (fs st !! os_path_join output_dir name) as [[|fmt im]|];
    [now intros [= <- _] | discriminate | discriminate].
Qed.

Lemma for_each_icons_raises (l : list (Z * string)) (st st' : world) (e : exn) :
  Forall (fun entry => 0 <= fst entry) l ->
  is_dir (fs st) output_dir = true ->
  for_each l icon_round st = Raise e st' -> e = IsADirectoryError.
Proof.
  revert st. induction l as [|[size name] l IH]; intros st Hnn Hdir Hrun;
    [discriminate Hrun|].
  inversion Hnn as [|x l' Hs Hnn']; subst. cbn [fst] in Hs.
  cbn [for_each] in Hrun. unfold mbind, M_bind, bind in Hrun.
  destruct (icon_round (size, name) st) as [[] st2|e2 st2] eqn:Hround.
  - apply icon_round_returns in Hround as [_ ->]; [|exact Hs].
    apply (IH _ Hnn' (is_dir_icon_step _ _ Hdir) Hrun).
  - injection Hrun as <- <-. now apply (icon_round_raises size name st st2).
Qed.

Lemma makedirs_from_raises (rest : list string) (here : path) (st st' : world)
    (e : exn) :
  makedirs_from here rest true st = Raise e st' ->
  e = FileExistsError \/ e = NotADirectoryError.
Proof.
  revert here st. induction rest as [|c rest IH]; intros here st Hrun;
    [discriminate Hrun|].
  cbn [makedirs_from] in Hrun.
  destruct (fs st !! (here ++ [c])) as [[|fmt im]|].
  - destruct rest as [|c' rest']; [discriminate Hrun | now apply (IH (here ++ [c]) st)].
  - destruct rest; injection Hrun as <- _; [now left | now right].
  - now apply (IH (here ++ [c]) (mkdir (here ++ [c]) st)).
Qed.

Lemma fs_fold_same (l : list (Z * string)) (st : world) :
  Forall (fun e => fs st !! os_path_join output_dir (snd e)
                   = Some (File PNG (render (fst e)))) l ->
  fs (fold_left icon_step l st) = fs st.
Proof.
  revert st. induction l as [|[size name] l IH]; intros st Hl; [reflexivity|].
  inversion Hl as [|x l' Hhere Hl']; subst. cbn [fst snd] in Hhere.
  assert (Hstep : fs (icon_step st (size, name)) = fs st)
    by (unfold icon_step; cbn [fs]; now apply insert_id).
  cbn [fold_left]. rewrite IH; [exact Hstep|]. now rewrite Hstep.
Qed.

Lemma all_dirs_fold (l : list (Z * string)) (st : world) :
  all_dirs (fs (fold_left icon_step l st)) [] output_dir
  = all_dirs (fs st) [] output_dir.
Proof.
  unfold output_dir. cbn [all_dirs app].
  rewrite !fs_fold_elsewhere; [reflexivity | | | ];
    intros Hin; apply list_elem_of_fmap in Hin as (e & Heq & _);
    apply (f_equal length) in Heq; unfold os_path_join, output_dir in Heq;
    rewrite length_app in Heq; cbn in Heq; lia.
Qed.

End Failures.

(** No rollback: where the output directory can be created and the first
    table entry whose name is taken by a directory is [entry], the run
    raises [IsADirectoryError] right after printing the progress line of
    [entry]; the files of the entries before it have been written and stay,
    the names from [entry] on are left as they were, and the completion line
    is not printed. *)
Theorem generate_icons_stops_at `{Rasteriser} (st : world)
    (before after : list (Z * string)) (entry : Z * string) :
  dirs_free (fs st) [] output_dir = true ->
  sizes = before ++ entry :: after ->
  forallb (fun e => negb (taken (fs st) e)) before = true ->
  taken (fs st) entry = true ->
  stops_at st before entry after.
Proof.
  intros Hfree Hsz Hbefore Htaken. destruct entry as [size name].
  destruct (makedirs_from_ready output_dir [] st Hfree) as [st1 Hmk].
  assert (Hname : forall n, fs st1 !! os_path_join output_dir n
                            = fs st !! os_path_join output_dir n).
  { intros n. pose proof (makedirs_from_elsewhere output_dir [] true st
                            (os_path_join output_dir n)) as Hel.
    rewrite Hmk in Hel. apply Hel. intros k _. apply target_off_the_way. }
  assert (Hdir : is_dir (fs st1) output_dir = true)
    by (apply all_dirs_is_dir; now apply (makedirs_from_all_dirs _ _ st)).
  pose proof sizes_nonnegative as Hnn. rewrite Hsz in Hnn.
  apply Forall_app in Hnn as [Hnn1 Hnn2].
  inversion Hnn2 as [|x l' Hs _]; subst x l'. cbn [fst] in Hs.
  pose proof sizes_names_distinct as Hnd. rewrite Hsz, map_app in Hnd.
  apply NoDup_app in Hnd as (Hnd1 & Hcross & Hnd2).
  assert (Hoff : forall n : string, n ∈ map snd ((size, name) :: after) ->
            os_path_join output_dir n
              ∉ map (fun e => os_path_join output_dir (snd e)) before).
  { intros n Hn Hin. apply list_elem_of_fmap in Hin as ([s' n'] & Heq & Hin).
    cbn [snd] in Heq. unfold os_path_join in Heq. apply app_inv_head in Heq.
    injection Heq as ->. apply (Hcross n'); [|exact Hn].
    apply list_elem_of_fmap. now exists (s', n'). }
  assert (Hloop : for_each before icon_round st1
                  = Ok tt (fold_left icon_step before st1)).
  { apply for_each_icons; [exact Hdir|].
    rewrite forallb_forall in Hbefore. apply Forall_forall. intros e He.
    split; [rewrite Forall_forall in Hnn1; now apply Hnn1|].
    rewrite Hname. intros Hd. apply taken_lookup in Hd.
    specialize (Hbefore e (proj1 (list_elem_of_In _ _) He)).
    rewrite Hd in Hbefore. discriminate Hbefore. }
  set (st2 := fold_left icon_step before st1) in *.
  assert (Hthere : fs st2 !! os_path_join output_dir name = Some Dir).
  { unfold st2. rewrite fs_fold_elsewhere by (apply Hoff; left).
    rewrite Hname. now apply (taken_lookup (fs st) (size, name)). }
  exists (mkWorld (images st2 ++ [render size]) (fs st2)
                  (trace st2 ++ [Printed (Generating name size)])).
  split; [|split; [|split]].
  - rewrite generate_icons_unfold. unfold os_makedirs. rewrite Hmk, Hsz.
    rewrite for_each_app, Hloop. cbn [for_each]. unfold mbind, M_bind, bind.
    rewrite icon_round_taken;
      [reflexivity | exact Hs | now apply is_dir_fold | exact Hthere].
  - cbn [trace fst snd]. unfold st2. rewrite trace_fold.
    rewrite (makedirs_from_made _ _ _ _ Hmk). now rewrite <- !app_assoc.
  - cbn [fs]. apply Forall_forall. intros [s n] Hin. cbn [fst snd].
    unfold st2. now apply fs_fold_target.
  - cbn [fs]. apply Forall_forall. intros [s n] Hin. cbn [snd].
    unfold st2. rewrite fs_fold_elsewhere; [apply Hname|].
    apply Hoff. apply list_elem_of_fmap. now exists (s, n).
Qed.

Lemma generate_icons_stops_at_witness :
  @stops_at ideal_raster third_taken_world
    [(16, "icon_16x16.png"); (32, "icon_16x16@2x.png")]
    (32, "icon_32x32.png")
    [(64, "icon_32x32@2x.png"); (128, "icon_128x128.png");
     (256, "icon_128x128@2x.png"); (256, "icon_256x256.png");
     (512, "icon_256x256@2x.png"); (512, "icon_512x512.png");
     (1024, "icon_512x512@2x.png")].
Proof.
  apply (@generate_icons_stops_at ideal_raster third_taken_world);
    vm_compute; reflexivity.
Defined.

(** Running the driver again is harmless: after a complete run a second run
    completes too, creates no directory, saves the same ten files again and
    leaves the file system exactly as the first run left it. *)
Theorem generate_icons_rerun `{Rasteriser} (st : world) :
  fs_ready (fs st) = true -> rerun_changes_nothing st.
Proof.
  intros Hready.
  destruct (generate_icons_run st Hready) as (st1 & Hmk & Hrun & _).
  set (st' := emit (Printed AllDone) (fold_left icon_step sizes st1)) in *.
  assert (Hall : all_dirs (fs st') [] output_dir = true).
  { unfold st', emit. cbn [fs]. rewrite all_dirs_fold.
    now apply (makedirs_from_all_dirs _ _ st). }
  assert (Hfiles : Forall (fun e => fs st' !! os_path_join output_dir (snd e)
                                    = Some (File PNG (render (fst e)))) sizes).
  { apply Forall_forall. intros [size name] Hin. unfold st', emit. cbn [fs fst snd].
    apply fs_fold_target; [apply sizes_names_distinct | exact Hin]. }
  exists st', (emit (Printed AllDone) (fold_left icon_step sizes st')).
  split; [exact Hrun|]. split; [|split].
  - rewrite generate_icons_unfold. unfold os_makedirs.
    rewrite (makedirs_from_existing _ _ _ Hall).
    rewrite for_each_icons; [reflexivity | now apply all_dirs_is_dir |].
    pose proof sizes_nonnegative as Hnn.
    rewrite Forall_forall in Hnn, Hfiles. apply Forall_forall. intros e He.
    split; [now apply Hnn|]. rewrite (Hfiles e He). discriminate.
  - unfold emit at 1. cbn [fs]. now apply fs_fold_same.
  - unfold emit at 1. cbn [trace]. rewrite trace_fold. now rewrite <- app_assoc.
Qed.

Lemma generate_icons_rerun_witness :
  fs_ready (fs empty_world) = true /\
  @rerun_changes_nothing ideal_raster empty_world.
Proof.
  split; [reflexivity |
          apply (@generate_icons_rerun ideal_raster empty_world); reflexivity].
Defined.

(** The ways a run can fail: only with [NotADirectoryError] or
    [FileExistsError] from [os.makedirs], or with [IsADirectoryError] from a
    save.  No drawing call raises, and no save ever misses its directory. *)
Theorem generate_icons_failures `{Rasteriser} (st st' : world) (e : exn) :
  generate_icons st = Raise e st' -> run_failure e = true.
Proof.
  rewrite generate_icons_unfold. intros Hrun.
  destruct (os_makedirs output_dir true st) as [[] st1|e1 st1] eqn:Hmk.
  - destruct (for_each sizes icon_round st1) as [[] st2|e2 st2] eqn:Hloop;
      [discriminate Hrun|].
    injection Hrun as <- _.
    apply for_each_icons_raises in Hloop as ->; [reflexivity | apply sizes_nonnegative |].
    apply all_dirs_is_dir. now apply (makedirs_from_all_dirs _ _ st).
  - injection Hrun as <- _.
    now destruct (makedirs_from_raises _ _ _ _ _ Hmk) as [-> | ->].
Qed.

Lemma generate_icons_failures_witness :
  @generate_icons ideal_raster blocked_world
    = Raise NotADirectoryError blocked_world /\
  run_failure NotADirectoryError = true.
Proof.
  assert (Hrun : @generate_icons ideal_raster blocked_world
                 = Raise NotADirectoryError blocked_world)
    by (vm_compute; reflexivity).
  split; [exact Hrun |].
  exact (@generate_icons_failures ideal_raster blocked_world blocked_world _ Hrun).
Defined.
